(** * Math-region scanners of treeblood.go: a shallow embedding

    The file follows [src/treeblood.go]: the delimiter constants, the inline
    scanner [texInlineRegionParser.Parse], the block scanner
    [texBlockRegionParser.Open] / [Continue] / [Close] and the renderer
    [MathRenderer.renderMath]; from main.go it takes the course listing of
    [main] and the handler [renderCource].

    Data.  A Go [[]byte] is a [list byte]; a Go [string] is a [string]; a Go
    [int] is a [Z] (every integer of the scanners is an offset into, or a
    length of, a slice held in memory, so no 64-bit wrap-around can occur and
    none is written out).  The flavor is the bitset of the source, with
    [Z.lor] and [Z.land].  A nil slice is [None], and an index out of range,
    where Go panics, does not occur on a reader that stands on a line
    ([on_line] below).

    Effects.  The scanners mutate the reader and the parser context they are
    handed; here both are threaded explicitly: every operation takes the
    reader and returns the new one.

    Outside the repository.  Go's [bytes] package is given by the functions
    of module [Bytes]; the host's reader, and the little of the host's
    dispatch that the statements about whole documents need, are modelled
    after the spec and marked so. *)

From Stdlib Require Import ZArith List Lia Bool.
From Stdlib Require Import Strings.String Strings.Byte.
Import ListNotations.

Open Scope Z_scope.

(** ** Byte slices and the functions of Go's [bytes] package the code calls *)

Definition bytes := list byte.

(** [[]byte("...")] and [string(b)]. *)
Definition B (s : string) : bytes := list_byte_of_string s.
Definition string_of (b : bytes) : string := string_of_list_byte b.

(** [len(b)]. *)
Definition len (b : bytes) : Z := Z.of_nat (List.length b).

(** [b[i:]] and [b[i:j]], for indices within range. *)
Definition slice_from (b : bytes) (i : Z) : bytes := skipn (Z.to_nat i) b.
Definition slice (b : bytes) (i j : Z) : bytes :=
  firstn (Z.to_nat (j - i)) (skipn (Z.to_nat i) b).

Module Bytes.

(** [bytes.HasPrefix(s, prefix)]. *)
Fixpoint HasPrefix (s prefix : bytes) {struct prefix} : bool :=
  match prefix, s with
  | [], _ => true
  | _ :: _, [] => false
  | p :: prefix', c :: s' => Byte.eqb c p && HasPrefix s' prefix'
  end.

(** Offset of the first occurrence of [sep] in [s], if there is one. *)
Fixpoint first_occurrence (s sep : bytes) : option nat :=
  if HasPrefix s sep then Some O
  else match s with
       | [] => None
       | _ :: s' => option_map S (first_occurrence s' sep)
       end.

(** [bytes.Index(s, sep)]: the index of the first instance of [sep] in [s],
    or -1. *)
Definition Index (s sep : bytes) : Z :=
  match first_occurrence s sep with
  | Some n => Z.of_nat n
  | None => -1
  end.

(** [bytes.Contains(b, subslice)] is [Index(b, subslice) != -1]. *)
Definition Contains (b subslice : bytes) : bool :=
  negb (Index b subslice =? -1).

(** Non-overlapping occurrences of a non-empty [sep]: after a match the
    scan resumes behind it, which [skip] counts down. *)
Fixpoint count_from (s sep : bytes) (skip : nat) : nat :=
  match s with
  | [] => O
  | _ :: s' =>
      match skip with
      | S k => count_from s' sep k
      | O => if HasPrefix s sep
             then S (count_from s' sep (pred (List.length sep)))
             else count_from s' sep O
      end
  end.

(** [bytes.Count(s, sep)]: the number of non-overlapping instances of
    [sep] in [s].  For an empty [sep] Go answers the number of code points
    plus one; that is one more than the length for the ASCII input used
    here, and no scanner passes an empty separator. *)
Definition Count (s sep : bytes) : Z :=
  match sep with
  | [] => len s + 1
  | _ => Z.of_nat (count_from s sep O)
  end.

End Bytes.

(** ** The reader *)

(** The scanners work on the host's [text.Reader] and [text.Segment], which
    are not part of this repository.  The module below stands for them: the
    operations are those spec section 6 lists (peek current line, advance by
    line, advance by byte count within a line, get and set an opaque
    position, extract a byte range), with the signatures the calls in
    treeblood.go fix.  The reader is the document with a scan position, the
    pair (line index, segment of the rest of the current line) that
    [Position] hands out and [SetPosition] takes back; what [PeekLine]
    answers is a function of that position. *)

Module text.

(** Modelled from the spec: [text.Segment], a byte range of the source;
    [Padding] counts the columns the host puts before an indented line. *)
Record Segment := mkSegment { Start : Z; Stop : Z; Padding : Z }.

(** Modelled from the spec: [text.NewSegment(start, stop)], the range
    without padding. *)
Definition NewSegment (start stop : Z) : Segment :=
  {| Start := start; Stop := stop; Padding := 0 |}.

(** Modelled from the spec: [Segment.Value(buffer)], the bytes of the range
    behind [Padding] spaces. *)
Definition SegmentValue (t : Segment) (buffer : bytes) : bytes :=
  repeat x20 (Z.to_nat (Padding t)) ++ slice buffer (Start t) (Stop t).

(** Modelled from the spec: the line-oriented reader of the host pipeline,
    [text.Reader]. *)
Record Reader := mkReader { Source : bytes; lineNo : Z; pos : Segment }.

(** Modelled from the spec: where the line that starts at [from] stops, the
    index behind its newline or the length of the source when no newline
    follows. *)
Definition line_stop (source : bytes) (from : Z) : Z :=
  let i := Bytes.Index (slice_from source from) [x0a] in
  if i <? 0 then len source else from + i + 1.

(** Modelled from the spec: [PeekLine], the rest of the current line with
    its segment, or nil at the end of the document. *)
Definition PeekLine (r : Reader) : option bytes * Segment :=
  if (0 <=? Start (pos r)) && (Start (pos r) <? len (Source r))
  then (Some (SegmentValue (pos r) (Source r)), pos r)
  else (None, pos r).

(** Modelled from the spec: [AdvanceLine], the move to the start of the next
    line. *)
Definition AdvanceLine (r : Reader) : Reader :=
  let start := Stop (pos r) in
  if start <? 0
  then {| Source := Source r; lineNo := lineNo r;
          pos := {| Start := start; Stop := Stop (pos r);
                    Padding := Padding (pos r) |} |}
  else {| Source := Source r; lineNo := lineNo r + 1;
          pos := {| Start := start; Stop := line_stop (Source r) start;
                    Padding := 0 |} |}.

(** Modelled from the spec: [Position], the opaque position. *)
Definition Position (r : Reader) : Z * Segment := (lineNo r, pos r).

(** Modelled from the spec: [SetPosition], the return to a position. *)
Definition SetPosition (r : Reader) (line : Z) (p : Segment) : Reader :=
  {| Source := Source r; lineNo := line; pos := p |}.

(** Modelled from the spec: whether the byte of the source at [i] is a
    newline. *)
Definition is_newline_at (source : bytes) (i : Z) : bool :=
  match nth_error source (Z.to_nat i) with
  | Some c => Byte.eqb c x0a
  | None => false
  end.

(** Modelled from the spec: one byte of [Advance], which is a pending
    padding column, the newline that ends the line, or a byte within the
    line. *)
Definition advance_step (r : Reader) : Reader :=
  if negb (Padding (pos r) =? 0)
  then {| Source := Source r; lineNo := lineNo r;
          pos := {| Start := Start (pos r); Stop := Stop (pos r);
                    Padding := Padding (pos r) - 1 |} |}
  else if is_newline_at (Source r) (Start (pos r))
  then AdvanceLine r
  else {| Source := Source r; lineNo := lineNo r;
          pos := {| Start := Start (pos r) + 1; Stop := Stop (pos r);
                    Padding := Padding (pos r) |} |}.

(** Modelled from the spec: [n] bytes of [Advance], as far as the source
    reaches. *)
Fixpoint advance_loop (n : nat) (r : Reader) : Reader :=
  match n with
  | O => r
  | S n' => if Start (pos r) <? len (Source r)
            then advance_loop n' (advance_step r)
            else r
  end.

(** Modelled from the spec: [Advance(n)], the move by a byte count. *)
Definition Advance (r : Reader) (n : Z) : Reader :=
  advance_loop (Z.to_nat n) r.

(** Modelled from the spec: [Value(seg)], the bytes of a segment of the
    source. *)
Definition Value (r : Reader) (seg : Segment) : bytes :=
  SegmentValue seg (Source r).

(** Modelled from the spec: [text.NewReader(source)], the reader on the
    first line of the document. *)
Definition NewReader (source : bytes) : Reader :=
  AdvanceLine {| Source := source; lineNo := -1;
                 pos := {| Start := 0; Stop := 0; Padding := 0 |} |}.

End text.

Import text.

(** ** Flavors and delimiters (treeblood.go, lines 28-42) *)

Definition flavor_inline : Z := Z.shiftl 1 0.
Definition flavor_display : Z := Z.shiftl 1 1.
Definition delimeter_ams : Z := Z.shiftl 1 2.
Definition delimeter_tex : Z := Z.shiftl 1 3.

(** The four bracket delimiters are raw string literals of the source: the
    two backslashes between the back quotes are two bytes. *)
Definition _inlineopen : bytes := B "\\(".
Definition _inlineclose : bytes := B "\\)".
Definition _displayopen : bytes := B "\\[".
Definition _displayclose : bytes := B "\\]".
Definition _dollarInline : bytes := B "$".
Definition _dollarDisplay : bytes := B "$$".

Record mathInlineNode := mkInline { inline_flavor : Z; inline_tex : string }.

(** A nil line has no prefix and no content. *)
Definition bytes_of (line : option bytes) : bytes :=
  match line with Some l => l | None => [] end.

(** ** The inline scanner (treeblood.go, lines 81-142) *)

(** The [switch] of [Parse]: opener, closer and flavor of the line. *)
Definition inline_classify (line : bytes) : option (bytes * bytes * Z) :=
  if Bytes.HasPrefix line _dollarDisplay
  then Some (_dollarDisplay, _dollarDisplay, Z.lor flavor_display delimeter_tex)
  else if Bytes.HasPrefix line _dollarInline
  then Some (_dollarInline, _dollarInline, Z.lor flavor_inline delimeter_tex)
  else if Bytes.HasPrefix line _inlineopen
  then Some (_inlineopen, _inlineclose, Z.lor flavor_inline delimeter_ams)
  else if Bytes.HasPrefix line _displayopen
  then Some (_displayopen, _displayclose, Z.lor flavor_display delimeter_ams)
  else None.

(** The one-line peek of [Parse] (lines 108-111): the next line, read with
    the position saved before and put back after. *)
Definition inline_peek (block : Reader) : option bytes * Reader :=
  let '(posLine, posSeg) := Position block in
  let block1 := AdvanceLine block in
  let nextLine := fst (PeekLine block1) in
  (nextLine, SetPosition block1 posLine posSeg).

Definition Parse (block : Reader) : option mathInlineNode * Reader :=
  let '(line, seg) := PeekLine block in
  let line := bytes_of line in
  match inline_classify line with
  | None => (None, block)
  | Some (begin, end_, flavor) =>
      let stop := Bytes.Index (slice_from line (len begin)) end_ in
      if stop <? 0 then
        let '(nextLine, block) := inline_peek block in
        match nextLine with
        | None => (None, block)
        | Some nextLine =>
            if negb (Bytes.Contains nextLine end_) then (None, block)
            else
              let block := AdvanceLine block in
              let '(line2, seg2) := PeekLine block in
              let stop := Bytes.Index (bytes_of line2) end_ in
              if stop <? 0 then (None, block)
              else
                let texSeg := NewSegment (Start seg2) (Start seg2 + stop) in
                let tex := string_of (Value block texSeg) in
                let block := Advance block (stop + len end_) in
                (Some {| inline_flavor := flavor; inline_tex := tex |}, block)
        end
      else
        let start := Start seg + len begin in
        let stop := stop + len begin in
        let texSeg := NewSegment start (Start seg + stop) in
        let tex := string_of (Value block texSeg) in
        let block := Advance block (stop + len end_) in
        (Some {| inline_flavor := flavor; inline_tex := tex |}, block)
  end.

(** ** The block scanner (treeblood.go, lines 144-265) *)

Record mathBlockData := mkData { d_start : Z; d_end : Z; d_flavor : Z }.

(** [ast.BaseBlock] contributes the list of line segments, [Lines()]. *)
Record mathBlockNode :=
  mkBlock { block_flavor : Z; block_tex : string; Lines : list Segment }.

(** The parser context, as far as the scanner uses it: the value stored
    under [mathBlockInfoKey], nil when there is none. *)
Definition Context := option mathBlockData.
Definition pcGet (pc : Context) : option mathBlockData := pc.
Definition pcSet (pc : Context) (v : option mathBlockData) : Context := v.

(** [parser.State] is a set of flags; [a | b] is the list of both. *)
Inductive StateFlag := None_ | Continue_ | Close_ | HasChildren | NoChildren.
Definition State := list StateFlag.

Definition has_flag (f : StateFlag) (s : State) : bool :=
  existsb (fun g => match f, g with
                    | None_, None_ | Continue_, Continue_ | Close_, Close_
                    | HasChildren, HasChildren | NoChildren, NoChildren => true
                    | _, _ => false
                    end) s.

(** The [switch] of [Open]. *)
Definition block_classify (line : bytes) : option (bytes * bytes * Z) :=
  if Bytes.HasPrefix line _displayopen
  then Some (_displayopen, _displayclose, Z.lor flavor_display delimeter_ams)
  else if Bytes.HasPrefix line _dollarDisplay
  then Some (_dollarDisplay, _dollarDisplay, Z.lor flavor_display delimeter_tex)
  else if Bytes.HasPrefix line _inlineopen
  then Some (_inlineopen, _inlineclose, Z.lor flavor_inline delimeter_ams)
  else if Bytes.HasPrefix line _dollarInline
  then Some (_dollarInline, _dollarInline, Z.lor flavor_inline delimeter_tex)
  else None.

(** The [for] statement of [Open] (lines 193-207).  Each of the three paths
    through its body ends in [break], so the body runs once: the reader goes
    to the next line, and [found] tells whether that line is there and holds
    the closer exactly once. *)
Definition probe_loop (reader : Reader) (end_ : bytes) : bool * Reader :=
  let reader := AdvanceLine reader in
  match fst (PeekLine reader) with
  | None => (false, reader)
  | Some nextLine =>
      if Bytes.Count nextLine end_ =? 1 then (true, reader)
      else (false, reader)
  end.

(** Lines 190-209: the loop between the saved and the restored position. *)
Definition probe (reader : Reader) (end_ : bytes) : bool * Reader :=
  let '(posLine, posSeg) := Position reader in
  let '(found, reader) := probe_loop reader end_ in
  (found, SetPosition reader posLine posSeg).

Definition Open (reader : Reader) (pc : Context)
  : option mathBlockNode * State * Reader * Context :=
  let line := bytes_of (fst (PeekLine reader)) in
  match block_classify line with
  | None => (None, [NoChildren], reader, pc)
  | Some (begin, end_, flavor) =>
      if Bytes.Contains (slice_from line (len begin)) end_
      then (None, [NoChildren], reader, pc)
      else
        let '(found, reader) := probe reader end_ in
        if negb found then (None, [NoChildren], reader, pc)
        else
          let reader := Advance reader (len begin) in
          let pc := pcSet pc (Some {| d_start := 0; d_end := 0;
                                      d_flavor := flavor |}) in
          let seg := snd (PeekLine reader) in
          (Some {| block_flavor := flavor; block_tex := EmptyString;
                   Lines := [seg] |},
           [NoChildren], reader, pc)
  end.

(** The [switch] of [Continue]; no case leaves [closeTag] nil. *)
Definition closeTag_of (flavor : Z) : bytes :=
  if flavor =? Z.lor flavor_inline delimeter_ams then _inlineclose
  else if flavor =? Z.lor flavor_display delimeter_ams then _displayclose
  else if flavor =? Z.lor flavor_inline delimeter_tex then _dollarInline
  else if flavor =? Z.lor flavor_display delimeter_tex then _dollarDisplay
  else [].

Definition Continue (node : mathBlockNode) (reader : Reader) (pc : Context)
  : State * mathBlockNode * Reader :=
  let '(line, seg) := PeekLine reader in
  match pcGet pc with
  | None => ([None_], node, reader)
  | Some d =>
      let closeTag := closeTag_of (d_flavor d) in
      let stop := Bytes.Index (bytes_of line) closeTag in
      if 0 <=? stop then
        let node :=
          {| block_flavor := block_flavor node; block_tex := block_tex node;
             Lines := Lines node
                      ++ [NewSegment (Start seg) (Start seg + stop)] |} in
        let reader := Advance reader (stop + len closeTag) in
        ([Close_; NoChildren], node, reader)
      else
        let node :=
          {| block_flavor := block_flavor node; block_tex := block_tex node;
             Lines := Lines node ++ [seg] |} in
        ([Continue_; NoChildren], node, reader)
  end.

(** The loop of [Close]: [n.tex += string(reader.Value(n.Lines().At(i)))]. *)
Definition join_lines (reader : Reader) (tex : string) (ls : list Segment)
  : string :=
  fold_left (fun acc seg => (acc ++ string_of (Value reader seg))%string)
            ls tex.

Definition Close (node : mathBlockNode) (reader : Reader) (pc : Context)
  : mathBlockNode * Context :=
  let node :=
    match pcGet pc with
    | Some d =>
        {| block_flavor := d_flavor d;
           block_tex := join_lines reader (block_tex node) (Lines node);
           Lines := Lines node |}
    | None => node
    end in
  (node, pcSet pc None).

(** ** The renderer (treeblood.go, lines 274-313) *)

(** The conversion engine: two functions from TeX source to markup and an
    error, nil when there is none. *)
Record Pitziil := mkPitziil {
  TextStyle : string -> string * option string;
  DisplayStyle : string -> string * option string
}.

(** The nodes the renderer can be handed. *)
Inductive Node :=
| InlineNode (n : mathInlineNode)
| BlockNode (n : mathBlockNode)
| OtherNode.

Inductive WalkStatus := WalkStop | WalkSkipChildren | WalkContinue.

(** The writer is the text written so far; the third component of the result
    is the error, nil in every path of the source. *)
Definition renderMath (pitz : Pitziil) (w : string) (node : Node)
  (entering : bool) : string * WalkStatus * option string :=
  match
    match node with
    | InlineNode t => Some (inline_flavor t, inline_tex t)
    | BlockNode t => Some (block_flavor t, block_tex t)
    | OtherNode => None
    end
  with
  | None => (w, WalkContinue, None)
  | Some (flavor, tex) =>
      let w :=
        if entering then
          let mml :=
            if Z.land flavor flavor_inline >? 0
            then fst (TextStyle pitz tex)
            else fst (DisplayStyle pitz tex) in
          (w ++ mml)%string
        else w in
      (w, WalkSkipChildren, None)
  end.

(** ** The host pipeline around the scanners *)

(** [Trigger()]: both scanners name the backslash and the dollar sign. *)
Definition Trigger : bytes := B "\$".

Definition is_trigger (c : byte) : bool :=
  existsb (Byte.eqb c) Trigger.

(** Modelled from the spec: the host's inline dispatch (section 6: the
    inline scanner is invoked when a trigger byte is met; section 4.2: with
    no unit, text handling proceeds over the byte).  The units of the
    document, in order. *)
Fixpoint inline_pass (fuel : nat) (block : Reader) : list mathInlineNode :=
  match fuel with
  | O => []
  | S fuel' =>
      match fst (PeekLine block) with
      | Some (c :: _) =>
          if is_trigger c then
            match Parse block with
            | (Some n, block') => n :: inline_pass fuel' block'
            | (None, block') => inline_pass fuel' (Advance block' 1)
            end
          else inline_pass fuel' (Advance block 1)
      | _ => []
      end
  end.

Definition inline_units (source : bytes) : list mathInlineNode :=
  inline_pass (S (List.length source)) (NewReader source).

(** Modelled from the spec: the host's block protocol for one opened region
    (section 4.3: [Continue] on each following line while the region is
    open, then [Close]; the end of the document closes what is open). *)
Fixpoint continue_lines (fuel : nat) (node : mathBlockNode) (reader : Reader)
  (pc : Context) : mathBlockNode * Reader * Context :=
  match fuel with
  | O => let '(node, pc) := Close node reader pc in (node, reader, pc)
  | S fuel' =>
      match fst (PeekLine reader) with
      | None => let '(node, pc) := Close node reader pc in (node, reader, pc)
      | Some _ =>
          let '(state, node, reader) := Continue node reader pc in
          if has_flag Continue_ state
          then continue_lines fuel' node (AdvanceLine reader) pc
          else let '(node, pc) := Close node reader pc in
               (node, AdvanceLine reader, pc)
      end
  end.

(** Modelled from the spec: the host's block pass (section 6: the block
    scanner is offered a line that starts with a trigger byte; a line it
    does not open is left to default handling). *)
Fixpoint block_pass (fuel : nat) (reader : Reader) (pc : Context)
  : list mathBlockNode :=
  match fuel with
  | O => []
  | S fuel' =>
      match fst (PeekLine reader) with
      | Some (c :: _) =>
          match (if is_trigger c then Open reader pc
                 else (None, [NoChildren], reader, pc)) with
          | (Some node, _, reader, pc) =>
              let '(node, reader, pc) :=
                continue_lines fuel' node (AdvanceLine reader) pc in
              node :: block_pass fuel' reader pc
          | (None, _, reader, pc) => block_pass fuel' (AdvanceLine reader) pc
          end
      | _ => []
      end
  end.

Definition block_units (source : bytes) : list mathBlockNode :=
  block_pass (S (List.length source)) (NewReader source) None.

Definition nl : string := string_of [x0a].

(** The bracket region of the spec's example, as the spec writes it: three
    lines, delimiters of two bytes. *)
Definition three_line_doc : bytes :=
  B ("\[" ++ nl ++ "x + y" ++ nl ++ "\]" ++ nl).

(** The same three lines with the delimiters the code has. *)
Definition three_line_doc_doubled : bytes :=
  B ("\\[" ++ nl ++ "x + y" ++ nl ++ "\\]" ++ nl).

(** The region with the closer on the line after the opener's. *)
Definition two_line_doc : bytes := B ("\\[" ++ nl ++ "x + y\\]" ++ nl).

(** An engine that fails on every input, with empty markup. *)
Definition failing_engine : Pitziil :=
  {| TextStyle := fun _ => (EmptyString, Some "text style failed"%string);
     DisplayStyle := fun _ => (EmptyString, Some "display style failed"%string) |}.

(** ** Predicates of the statements *)

(** No byte of [b] is [c]. *)
Definition lacks (c : byte) (b : bytes) : bool :=
  forallb (fun d => negb (Byte.eqb d c)) b.

Definition no_newline (b : bytes) : bool := lacks x0a b.

(** The inline bit of a flavor is its lowest bit. *)
Definition has_inline_bit (flavor : Z) : bool := Z.testbit flavor 0.

(** What [NewReader], [AdvanceLine] and [Advance] within a line establish:
    no padding is pending, the segment lies in the source, and a newline, if
    the segment holds one, is its last byte. *)
Definition on_line (r : Reader) : bool :=
  (Padding (pos r) =? 0) && (0 <=? Start (pos r))
  && (Start (pos r) <=? Stop (pos r)) && (Stop (pos r) <=? len (Source r))
  && no_newline (slice (Source r) (Start (pos r)) (Stop (pos r) - 1)).

(** The reader with the start of its segment moved. *)
Definition set_start (r : Reader) (start : Z) : Reader :=
  {| Source := Source r; lineNo := lineNo r;
     pos := {| Start := start; Stop := Stop (pos r);
               Padding := Padding (pos r) |} |}.

(** ** Segments within the source *)

(** A segment the source can be sliced with: [buffer[Start:Stop]] is in
    range, and no padding is put before it. *)
Definition seg_in_bounds (source : bytes) (seg : Segment) : bool :=
  (Padding seg =? 0) && (0 <=? Start seg) && (Start seg <=? Stop seg)
  && (Stop seg <=? len source).

(** ** The course pages (main.go) *)

(** The functions of Go's [strings] package that main.go calls; a Go string
    is taken apart here, so it is the list of its bytes. *)
Module Strings.

(** [a == b]. *)
Fixpoint eqb (a b : bytes) : bool :=
  match a, b with
  | [], [] => true
  | c :: a', d :: b' => Byte.eqb c d && eqb a' b'
  | _, _ => false
  end.

(** [strings.HasPrefix]. *)
Definition HasPrefix (s prefix : bytes) : bool := Bytes.HasPrefix s prefix.

(** [strings.HasSuffix(s, suffix)]:
    [len(s) >= len(suffix) && s[len(s)-len(suffix):] == suffix]. *)
Definition HasSuffix (s suffix : bytes) : bool :=
  (len suffix <=? len s) && eqb (slice_from s (len s - len suffix)) suffix.

(** [strings.TrimPrefix]. *)
Definition TrimPrefix (s prefix : bytes) : bytes :=
  if HasPrefix s prefix then slice_from s (len prefix) else s.

(** [strings.TrimSuffix]. *)
Definition TrimSuffix (s suffix : bytes) : bytes :=
  if HasSuffix s suffix then slice s 0 (len s - len suffix) else s.

Definition in_cutset (cutset : bytes) (c : byte) : bool :=
  existsb (Byte.eqb c) cutset.

(** Leading bytes of the cutset removed. *)
Fixpoint trimLeft (s cutset : bytes) : bytes :=
  match s with
  | [] => []
  | c :: s' => if in_cutset cutset c then trimLeft s' cutset else s
  end.

(** Trailing bytes of the cutset removed. *)
Fixpoint trimRight (s cutset : bytes) : bytes :=
  match s with
  | [] => []
  | c :: s' =>
      match trimRight s' cutset with
      | [] => if in_cutset cutset c then [] else [c]
      | t => c :: t
      end
  end.

(** [strings.Trim(s, cutset)] for a cutset of ASCII bytes, as the one-byte
    cutset of main.go is: the trailing, then the leading bytes of the
    cutset are removed; an empty cutset removes nothing. *)
Definition Trim (s cutset : bytes) : bytes :=
  trimLeft (trimRight s cutset) cutset.

End Strings.

(** The course name [main] lists for a file found by its glob (main.go,
    line 198). *)
Definition cource_name (cource : bytes) : bytes :=
  Strings.TrimPrefix (Strings.TrimSuffix cource (B ".md"))
    (B "content/cources/").

(** The loop of [main] (lines 197-199): one name appended per file. *)
Definition list_cources (cources : list bytes) : list bytes :=
  fold_left (fun acc cource => acc ++ [cource_name cource]) cources [].

(** The map handed to the template of a course page (lines 158-162). *)
Record CourceData := mkCourceData {
  CurrentCource : bytes;
  CurrentCourceSlug : bytes;
  DataCources : list bytes
}.

(** A template, as far as the handler sees it: [ExecuteTemplate] with its
    error, nil when there is none. *)
Definition Template := CourceData -> option string.

(** [App], as far as the course handler reads it. *)
Record App := mkApp {
  Templates : bytes -> option Template;
  Cources : list bytes
}.

(** What the handler does with the request. *)
Inductive Response :=
| NotFound
| TemplateMissing
| Executed (data : CourceData) (err : option string).

(** [renderCource] (main.go, lines 138-168), on the path of the request. *)
Definition renderCource (app : App) (path : bytes) : Response :=
  let cource := Strings.TrimPrefix path (B "/cource/") in
  let cource := Strings.Trim cource (B "/") in
  if Strings.eqb cource [] then NotFound
  else
    match Templates app (B "cource.html") with
    | None => TemplateMissing
    | Some t =>
        let data := {| CurrentCource := cource;
                       CurrentCourceSlug := cource ++ B ".md";
                       DataCources := Cources app |} in
        Executed data (t data)
    end.

(** An application with a course template that never fails. *)
Definition app_with_template (cources : list bytes) : App :=
  {| Templates := fun name =>
       if Strings.eqb name (B "cource.html") then Some (fun _ => None)
       else None;
     Cources := cources |}.

(** A bracket region with text on the opener's line and behind the
    closer. *)
Definition region_doc : bytes := B ("\\[a" ++ nl ++ "b\\] c" ++ nl).

(** * Properties *)

(** ** Facts about the byte functions *)

Section BytesFacts.

Import Bytes.

Lemma len_nonneg (b : bytes) : 0 <= len b.
Proof. unfold len; lia. Qed.

Lemma len_app (a b : bytes) : len (a ++ b) = len a + len b.
Proof. unfold len; rewrite length_app; lia. Qed.

Lemma HasPrefix_true (s p : bytes) :
  HasPrefix s p = true <-> exists t, s = p ++ t.
Proof.
  revert s; induction p as [|c p IH]; intros s; simpl.
  - split; [intros _; now exists s | reflexivity].
  - destruct s as [|d s].
    + split; [discriminate | intros [t H]; discriminate].
    + rewrite andb_true_iff, IH. split.
      * intros [Hc [t ->]]. apply byte_dec_bl in Hc. subst. eauto.
      * intros [t H]. injection H as -> ->.
        split; [now apply byte_dec_lb | eauto].
Qed.

Lemma HasPrefix_app (p t : bytes) : HasPrefix (p ++ t) p = true.
Proof. apply HasPrefix_true; eauto. Qed.

(** The first occurrence is an occurrence, and nothing occurs before it. *)
Lemma first_occurrence_Some (s sep : bytes) (n : nat) :
  first_occurrence s sep = Some n ->
  (exists t, skipn n s = sep ++ t) /\
  (forall k, (k < n)%nat -> HasPrefix (skipn k s) sep = false).
Proof.
  revert n; induction s as [|c s IH]; intros n; simpl.
  - destruct (HasPrefix [] sep) eqn:E; [|discriminate].
    intros [= <-]. split; [now apply HasPrefix_true | intros k Hk; lia].
  - destruct (HasPrefix (c :: s) sep) eqn:E.
    + intros [= <-]. split; [now apply HasPrefix_true | intros k Hk; lia].
    + destruct (first_occurrence s sep) as [m|] eqn:Em; [|discriminate].
      simpl. intros [= <-]. destruct (IH m eq_refl) as [Ht Hmin].
      split; [exact Ht|].
      intros [|k] Hk; simpl; [exact E | apply Hmin; lia].
Qed.

Lemma first_occurrence_le (s sep : bytes) (n : nat) :
  first_occurrence s sep = Some n -> (n <= List.length s)%nat.
Proof.
  revert n; induction s as [|c s IH]; intros n; simpl.
  - destruct (HasPrefix [] sep); [intros [= <-]; lia | discriminate].
  - destruct (HasPrefix (c :: s) sep); [intros [= <-]; lia|].
    destruct (first_occurrence s sep) as [m|]; [|discriminate].
    simpl. intros [= <-]. specialize (IH m eq_refl). lia.
Qed.

Lemma first_occurrence_None (s sep : bytes) :
  first_occurrence s sep = None ->
  forall k, (k <= List.length s)%nat -> HasPrefix (skipn k s) sep = false.
Proof.
  induction s as [|c s IH]; simpl.
  - destruct (HasPrefix [] sep) eqn:E; [discriminate|].
    intros _ k Hk. now destruct k.
  - destruct (HasPrefix (c :: s) sep) eqn:E; [discriminate|].
    destruct (first_occurrence s sep) eqn:Em; [discriminate|].
    intros _ [|k] Hk; simpl; [exact E | apply IH; [reflexivity | lia]].
Qed.

Lemma Index_lower (s sep : bytes) : -1 <= Index s sep.
Proof. unfold Index; destruct (first_occurrence s sep); lia. Qed.

(** A found index splits the slice around the separator. *)
Lemma Index_split (s sep : bytes) :
  0 <= Index s sep ->
  exists body tail,
    s = body ++ sep ++ tail /\ len body = Index s sep.
Proof.
  unfold Index. destruct (first_occurrence s sep) as [n|] eqn:E; [|lia].
  intros _. destruct (first_occurrence_Some _ _ _ E) as [[t Ht] _].
  exists (firstn n s), t. split.
  - rewrite <- Ht. symmetry; apply firstn_skipn.
  - unfold len. rewrite length_firstn.
    pose proof (first_occurrence_le _ _ _ E). lia.
Qed.

(** No byte before a found index starts the separator. *)
Lemma Index_first (s sep : bytes) (k : nat) :
  Z.of_nat k < Index s sep -> HasPrefix (skipn k s) sep = false.
Proof.
  unfold Index. destruct (first_occurrence s sep) as [n|] eqn:E; [|lia].
  intros Hk. destruct (first_occurrence_Some _ _ _ E) as [_ Hmin].
  apply Hmin; lia.
Qed.

Lemma Contains_true (b sub : bytes) :
  Contains b sub = true <-> 0 <= Index b sub.
Proof.
  unfold Contains. pose proof (Index_lower b sub).
  rewrite negb_true_iff, Z.eqb_neq. lia.
Qed.

Lemma Contains_false (b sub : bytes) :
  Contains b sub = false <-> Index b sub < 0.
Proof.
  unfold Contains. pose proof (Index_lower b sub).
  rewrite negb_false_iff, Z.eqb_eq. lia.
Qed.

End BytesFacts.

(** ** Facts about slices and the reader *)

Section ReaderFacts.

Lemma slice_from_app (p t : bytes) : slice_from (p ++ t) (len p) = t.
Proof.
  unfold slice_from, len. rewrite Nat2Z.id, skipn_app, skipn_all, Nat.sub_diag.
  reflexivity.
Qed.

Lemma slice_app_mid (pre mid post : bytes) :
  slice (pre ++ mid ++ post) (len pre) (len pre + len mid) = mid.
Proof.
  unfold slice, len.
  replace (Z.of_nat (List.length pre) + Z.of_nat (List.length mid)
           - Z.of_nat (List.length pre)) with (Z.of_nat (List.length mid))
    by lia.
  rewrite !Nat2Z.id, skipn_app, skipn_all, Nat.sub_diag. simpl.
  rewrite firstn_app, firstn_all, Nat.sub_diag. simpl. apply app_nil_r.
Qed.

Lemma no_newline_app (a b : bytes) :
  no_newline (a ++ b) = no_newline a && no_newline b.
Proof. apply forallb_app. Qed.

(** Where a one-byte separator starts nowhere, the byte is absent. *)
Lemma lacks_firstn (c : byte) (l : bytes) :
  forall n : nat,
    (forall k, (k < n)%nat -> Bytes.HasPrefix (skipn k l) [c] = false) ->
    lacks c (firstn n l) = true.
Proof.
  induction l as [|d l IH]; intros n H.
  - now rewrite firstn_nil.
  - destruct n as [|n]; [reflexivity|].
    simpl. apply andb_true_iff. split.
    + specialize (H O ltac:(lia)). simpl in H.
      rewrite andb_true_r in H. now rewrite H.
    + apply IH. intros k Hk. apply (H (S k)). lia.
Qed.

Lemma no_newline_firstn (n m : nat) (l : bytes) :
  (n <= m)%nat -> no_newline (firstn m l) = true ->
  no_newline (firstn n l) = true.
Proof.
  intros Hnm H. replace n with (Nat.min n m) by lia.
  rewrite <- firstn_firstn. rewrite <- (firstn_skipn n (firstn m l)) in H.
  rewrite no_newline_app in H. now apply andb_true_iff in H.
Qed.

Lemma SegmentValue_unpadded (t : Segment) (buffer : bytes) :
  Padding t = 0 ->
  SegmentValue t buffer = slice buffer (Start t) (Stop t).
Proof. unfold SegmentValue. now intros ->. Qed.

Lemma on_line_facts (r : Reader) :
  on_line r = true ->
  Padding (pos r) = 0 /\ 0 <= Start (pos r) <= Stop (pos r)
  /\ Stop (pos r) <= len (Source r)
  /\ no_newline (slice (Source r) (Start (pos r)) (Stop (pos r) - 1)) = true.
Proof.
  unfold on_line. rewrite !andb_true_iff.
  rewrite Z.eqb_eq, !Z.leb_le. tauto.
Qed.

(** The peeked line of a reader on a line: where it lies in the source,
    and that only its last byte can be a newline. *)
Lemma PeekLine_on_line (r : Reader) (line : bytes) :
  on_line r = true -> fst (PeekLine r) = Some line ->
  PeekLine r = (Some line, pos r)
  /\ (exists pre post,
        Source r = pre ++ line ++ post /\ len pre = Start (pos r))
  /\ no_newline (firstn (List.length line - 1) line) = true.
Proof.
  intros Hon Hpeek.
  destruct (on_line_facts r Hon) as (Hpad & Hstart & Hstop & Hnl).
  unfold PeekLine in *.
  destruct ((0 <=? Start (pos r)) && (Start (pos r) <? len (Source r)));
    simpl in Hpeek; [|discriminate].
  injection Hpeek as <-.
  rewrite SegmentValue_unpadded by assumption.
  split; [reflexivity|]. unfold slice in *. unfold len in *.
  set (a := Z.to_nat (Start (pos r))) in *.
  set (src := Source r) in *.
  split.
  - exists (firstn a src),
      (skipn (Z.to_nat (Stop (pos r) - Start (pos r))) (skipn a src)).
    split.
    + rewrite firstn_skipn. symmetry; apply firstn_skipn.
    + rewrite length_firstn. lia.
  - rewrite firstn_firstn.
    apply no_newline_firstn
      with (m := Z.to_nat (Stop (pos r) - 1 - Start (pos r)));
      [|assumption].
    rewrite length_firstn, length_skipn. lia.
Qed.

Lemma is_newline_at_mid (pre post : bytes) (c : byte) :
  is_newline_at (pre ++ c :: post) (len pre) = Byte.eqb c x0a.
Proof.
  unfold is_newline_at, len. rewrite Nat2Z.id.
  rewrite nth_error_app2, Nat.sub_diag by lia. reflexivity.
Qed.

(** [Advance] over bytes without a newline moves the start, nothing
    else. *)
Lemma advance_loop_over (w : bytes) :
  forall (r : Reader) (pre post : bytes),
    Source r = pre ++ w ++ post -> len pre = Start (pos r) ->
    Padding (pos r) = 0 -> no_newline w = true ->
    advance_loop (List.length w) r = set_start r (Start (pos r) + len w).
Proof.
  induction w as [|c w IH]; intros r pre post Hsrc Hpre Hpad Hnl.
  - simpl. unfold set_start, len. simpl. rewrite Z.add_0_r.
    now destruct r as [src l []].
  - simpl in Hnl. apply andb_true_iff in Hnl as [Hc Hw].
    simpl advance_loop.
    assert (Hlt : (Start (pos r) <? len (Source r)) = true).
    { apply Z.ltb_lt. rewrite Hsrc, <- Hpre, !len_app.
      pose proof (len_nonneg post). pose proof (len_nonneg w).
      change (c :: w) with ([c] ++ w). rewrite len_app.
      change (len [c]) with 1. lia. }
    rewrite Hlt. unfold advance_step. rewrite Hpad. simpl negb. cbv iota.
    rewrite Hsrc at 1. rewrite <- Hpre at 1. simpl app at 1.
    rewrite is_newline_at_mid. apply negb_true_iff in Hc. rewrite Hc.
    rewrite (IH _ (pre ++ [c]) post); simpl.
    + unfold set_start; simpl. rewrite ?Hpad.
      change (c :: w) with ([c] ++ w). rewrite len_app.
      change (len [c]) with 1. f_equal. f_equal. lia.
    + rewrite Hsrc, <- app_assoc. reflexivity.
    + rewrite len_app, Hpre. reflexivity.
    + reflexivity.
    + assumption.
Qed.

Lemma Advance_over (r : Reader) (pre w post : bytes) :
  Source r = pre ++ w ++ post -> len pre = Start (pos r) ->
  Padding (pos r) = 0 -> no_newline w = true ->
  Advance r (len w) = set_start r (Start (pos r) + len w).
Proof.
  intros. unfold Advance, len at 1. rewrite Nat2Z.id.
  now apply advance_loop_over with (pre := pre) (post := post).
Qed.

(** Putting back the position just read is the identity. *)
Lemma SetPosition_Position (r r1 : Reader) :
  Source r1 = Source r ->
  SetPosition r1 (fst (Position r)) (snd (Position r)) = r.
Proof. destruct r, r1; simpl. now intros ->. Qed.

Lemma Source_AdvanceLine (r : Reader) : Source (AdvanceLine r) = Source r.
Proof. unfold AdvanceLine. now destruct (Stop (pos r) <? 0). Qed.

(** [line_stop] ends the line that starts at [from]. *)
Lemma line_stop_spec (source : bytes) (from : Z) :
  0 <= from <= len source ->
  from <= line_stop source from <= len source
  /\ no_newline (slice source from (line_stop source from - 1)) = true.
Proof.
  intros Hfrom. unfold line_stop, slice, slice_from, no_newline.
  set (rest := skipn (Z.to_nat from) source).
  assert (Hrest : len rest = len source - from).
  { unfold rest, len in *. rewrite length_skipn. lia. }
  destruct (Z.ltb_spec (Bytes.Index rest [x0a]) 0) as [Hneg|Hpos].
  - split; [lia|]. apply lacks_firstn. intros k Hk.
    unfold Bytes.Index in Hneg.
    destruct (Bytes.first_occurrence rest [x0a]) eqn:E; [lia|].
    apply (first_occurrence_None _ _ E). unfold len in *. lia.
  - destruct (Index_split _ _ Hpos) as (body & tail & Hsplit & Hbody).
    assert (len rest = len body + 1 + len tail).
    { rewrite Hsplit, !len_app. change (len [x0a]) with 1. lia. }
    pose proof (len_nonneg tail). split; [lia|].
    apply lacks_firstn. intros k Hk. apply Index_first. lia.
Qed.

Lemma on_line_AdvanceLine (r : Reader) :
  0 <= Stop (pos r) <= len (Source r) -> on_line (AdvanceLine r) = true.
Proof.
  intros H. unfold AdvanceLine.
  replace (Stop (pos r) <? 0) with false by (symmetry; apply Z.ltb_ge; lia).
  destruct (line_stop_spec (Source r) (Stop (pos r)) H) as [Hb Hnl].
  unfold on_line; simpl. rewrite Hnl, !andb_true_iff, !Z.leb_le. lia.
Qed.

Lemma on_line_NewReader (source : bytes) : on_line (NewReader source) = true.
Proof.
  apply on_line_AdvanceLine. simpl. pose proof (len_nonneg source). lia.
Qed.

Lemma lacks_skipn (c : byte) (k : nat) (l : bytes) :
  lacks c l = true -> lacks c (skipn k l) = true.
Proof.
  intros H. rewrite <- (firstn_skipn k l) in H. unfold lacks in *.
  rewrite forallb_app in H. now apply andb_true_iff in H.
Qed.

(** Moving the start within the segment keeps the reader on its line: the
    reader [Parse] returns with a unit is again on a line. *)
Lemma on_line_set_start (r : Reader) (start : Z) :
  on_line r = true -> Start (pos r) <= start <= Stop (pos r) ->
  on_line (set_start r start) = true.
Proof.
  intros Hon Hs.
  destruct (on_line_facts r Hon) as (Hpad & Hstart & Hstop & Hnl).
  unfold on_line, set_start; simpl.
  rewrite Hpad, !andb_true_iff, !Z.leb_le. repeat split; try lia.
  apply lacks_skipn with (k := Z.to_nat (start - Start (pos r))) in Hnl.
  unfold slice in *. rewrite skipn_firstn_comm, skipn_skipn in Hnl.
  replace (Z.to_nat (start - Start (pos r)) + Z.to_nat (Start (pos r)))%nat
    with (Z.to_nat start) in Hnl by lia.
  replace (Z.to_nat (Stop (pos r) - 1 - start))
    with (Z.to_nat (Stop (pos r) - 1 - Start (pos r))
          - Z.to_nat (start - Start (pos r)))%nat by lia.
  exact Hnl.
Qed.

End ReaderFacts.

(** ** The inline scanner *)

Section InlineScanner.

Import Bytes.

(** What every case of the [switch] of [Parse] fixes. *)
Lemma inline_classify_Some (line b e : bytes) (f : Z) :
  inline_classify line = Some (b, e, f) ->
  HasPrefix line b = true /\ no_newline b = true /\ no_newline e = true
  /\ 0 < len e.
Proof.
  unfold inline_classify.
  destruct (HasPrefix line _dollarDisplay) eqn:E1;
    [intros [= <- <- <-]; repeat split; assumption || reflexivity|].
  destruct (HasPrefix line _dollarInline) eqn:E2;
    [intros [= <- <- <-]; repeat split; assumption || reflexivity|].
  destruct (HasPrefix line _inlineopen) eqn:E3;
    [intros [= <- <- <-]; repeat split; assumption || reflexivity|].
  destruct (HasPrefix line _displayopen) eqn:E4;
    [intros [= <- <- <-]; repeat split; assumption || reflexivity|].
  discriminate.
Qed.

(** The closer on the same line (lines 129-141): the unit holds the bytes
    between the opener and the first closer, and the reader stands behind
    that closer. *)
Lemma Parse_same_line (r : Reader) (line b e : bytes) (f : Z) :
  on_line r = true ->
  fst (PeekLine r) = Some line ->
  inline_classify line = Some (b, e, f) ->
  0 <= Index (slice_from line (len b)) e ->
  exists body tail,
    line = b ++ body ++ e ++ tail
    /\ len body = Index (slice_from line (len b)) e
    /\ Parse r =
         (Some {| inline_flavor := f; inline_tex := string_of body |},
          set_start r (Start (pos r) + len b + len body + len e)).
Proof.
  intros Hon Hpeek Hcls Hidx.
  destruct (inline_classify_Some _ _ _ _ Hcls) as (Hpre & Hnb & Hne & Hle).
  apply HasPrefix_true in Hpre as [rest Hline].
  destruct (PeekLine_on_line r line Hon Hpeek)
    as (Hpk & (pre & post & Hsrc & Hlen) & Hnl).
  destruct (on_line_facts r Hon) as (Hpad & _).
  assert (Hrest : slice_from line (len b) = rest)
    by (rewrite Hline; apply slice_from_app).
  destruct (Index_split _ _ Hidx) as (body & tail & Hsplit & Hbody).
  rewrite Hrest in Hsplit.
  exists body, tail. split; [now rewrite Hline, Hsplit|]. split; [exact Hbody|].
  unfold Parse. rewrite Hpk. simpl bytes_of. rewrite Hcls.
  set (stop := Index (slice_from line (len b)) e) in *.
  replace (stop <? 0) with false by (symmetry; apply Z.ltb_ge; lia).
  f_equal.
  - do 2 f_equal. unfold Value. rewrite SegmentValue_unpadded by reflexivity.
    simpl Start; simpl Stop. rewrite Hsrc, Hline, Hsplit.
    replace (pre ++ (b ++ body ++ e ++ tail) ++ post)
      with ((pre ++ b) ++ body ++ (e ++ tail ++ post))
      by (now rewrite <- !app_assoc).
    rewrite <- Hlen, <- Hbody.
    replace (len pre + (len body + len b)) with (len (pre ++ b) + len body)
      by (rewrite len_app; lia).
    rewrite <- len_app. now rewrite slice_app_mid.
  - replace (stop + len b + len e) with (len (b ++ body ++ e))
      by (rewrite !len_app; lia).
    rewrite (Advance_over r pre (b ++ body ++ e) (tail ++ post)).
    + rewrite !len_app. f_equal. lia.
    + rewrite Hsrc, Hline, Hsplit. now rewrite <- !app_assoc.
    + exact Hlen.
    + exact Hpad.
    + rewrite app_assoc, no_newline_app, Hne, andb_true_r.
      apply no_newline_firstn with (n := List.length (b ++ body)) in Hnl.
      * rewrite Hline, Hsplit, app_assoc, firstn_app in Hnl.
        rewrite firstn_all, Nat.sub_diag in Hnl. simpl in Hnl.
        now rewrite app_nil_r in Hnl.
      * rewrite Hline, Hsplit, !length_app.
        unfold len in Hle. lia.
Qed.

End InlineScanner.

(** ** Lookahead and the reader's position *)

Section Lookahead.

Import Bytes.

Lemma inline_peek_eq (r : Reader) :
  inline_peek r = (fst (PeekLine (AdvanceLine r)), r).
Proof.
  unfold inline_peek.
  rewrite (surjective_pairing (Position r)).
  now rewrite SetPosition_Position by apply Source_AdvanceLine.
Qed.

Lemma Source_probe_loop (r : Reader) (e : bytes) :
  Source (snd (probe_loop r e)) = Source r.
Proof.
  unfold probe_loop. destruct (fst (PeekLine (AdvanceLine r))) as [l|];
    [destruct (Count l e =? 1)|]; apply Source_AdvanceLine.
Qed.

Lemma probe_eq (r : Reader) (e : bytes) :
  probe r e = (fst (probe_loop r e), r).
Proof.
  unfold probe.
  rewrite (surjective_pairing (Position r)).
  rewrite (surjective_pairing (probe_loop r e)).
  now rewrite SetPosition_Position by apply Source_probe_loop.
Qed.

(** The probe confirms exactly when the next line is there and holds the
    closer once. *)
Lemma probe_loop_found (r : Reader) (e : bytes) :
  fst (probe_loop r e) = true <->
  exists next, fst (PeekLine (AdvanceLine r)) = Some next /\ Count next e = 1.
Proof.
  unfold probe_loop. destruct (fst (PeekLine (AdvanceLine r))) as [l|].
  - destruct (Count l e =? 1) eqn:E; simpl.
    + apply Z.eqb_eq in E. split; eauto.
    + apply Z.eqb_neq in E. split; [discriminate|].
      intros (next & [= <-] & H). contradiction.
  - simpl. split; [discriminate | intros (next & H & _); discriminate].
Qed.

(** [Open] in terms of its three tests. *)
Lemma Open_eq (r : Reader) (pc : Context) :
  Open r pc =
  match block_classify (bytes_of (fst (PeekLine r))) with
  | None => (None, [NoChildren], r, pc)
  | Some (b, e, f) =>
      if Contains (slice_from (bytes_of (fst (PeekLine r))) (len b)) e
      then (None, [NoChildren], r, pc)
      else if fst (probe_loop r e)
      then (Some {| block_flavor := f; block_tex := EmptyString;
                    Lines := [snd (PeekLine (Advance r (len b)))] |},
            [NoChildren], Advance r (len b),
            Some {| d_start := 0; d_end := 0; d_flavor := f |})
      else (None, [NoChildren], r, pc)
  end.
Proof.
  unfold Open.
  destruct (block_classify (bytes_of (fst (PeekLine r)))) as [[[b e] f]|];
    [|reflexivity].
  destruct (Contains _ e); [reflexivity|].
  rewrite probe_eq. now destruct (fst (probe_loop r e)).
Qed.

End Lookahead.

(** C1.  A lookahead that ends without a match leaves the reader where it
    was: the one-line peek of the inline scanner puts the saved position
    back, and whenever [Parse] yields no unit the reader it returns is the
    reader it was given; the probe of the block scanner puts the saved
    position back whether or not it confirmed, and whenever [Open] yields no
    node the reader and the context it returns are the ones it was given. *)
Theorem failed_lookahead_restores_position :
  (forall r, snd (inline_peek r) = r)
  /\ (forall r r', Parse r = (None, r') -> r' = r)
  /\ (forall r e, snd (probe r e) = r)
  /\ (forall r pc st r' pc',
        Open r pc = (None, st, r', pc') -> r' = r /\ pc' = pc).
Proof.
  split; [intros r; now rewrite inline_peek_eq|].
  split.
  - intros r r'. unfold Parse.
    destruct (PeekLine r) as [line seg].
    destruct (inline_classify (bytes_of line)) as [[[b e] f]|];
      [|now intros [= <-]].
    destruct (Bytes.Index (slice_from (bytes_of line) (len b)) e <? 0);
      [|discriminate].
    rewrite inline_peek_eq.
    destruct (fst (PeekLine (AdvanceLine r))) as [next|] eqn:Enext;
      [|now intros [= <-]].
    destruct (Bytes.Contains next e) eqn:Ec; simpl; [|now intros [= <-]].
    rewrite (surjective_pairing (PeekLine (AdvanceLine r))), Enext.
    simpl bytes_of. apply Contains_true in Ec.
    replace (Bytes.Index next e <? 0) with false
      by (symmetry; apply Z.ltb_ge; lia).
    discriminate.
  - split; [intros r e; now rewrite probe_eq|].
    intros r pc st r' pc'. rewrite Open_eq.
    destruct (block_classify _) as [[[b e] f]|]; [|now intros [= _ <- <-]].
    destruct (Bytes.Contains _ e); [now intros [= _ <- <-]|].
    destruct (fst (probe_loop r e)); [discriminate | now intros [= _ <- <-]].
Qed.

(** The inline peek fails on a lone opener, the probe on a line that holds
    the closer twice: both leave the reader in place. *)
Lemma failed_lookahead_restores_position_witness :
  snd (Parse (NewReader (B "$x"))) = NewReader (B "$x")
  /\ snd (fst (Open (NewReader (B ("$$" ++ nl ++ "a $$ b $$" ++ nl))) None))
     = NewReader (B ("$$" ++ nl ++ "a $$ b $$" ++ nl)).
Proof.
  destruct failed_lookahead_restores_position as (_ & Hparse & _ & Hopen).
  split.
  - apply Hparse. vm_compute. reflexivity.
  - refine (proj1 (Hopen _ None [NoChildren] _ None _)). vm_compute. reflexivity.
Defined.

(** C2.  [Open] commits to a block region exactly when the prefix of the line
    is a recognized opener, the closer does not occur in the rest of that
    line, and the confirmation walk finds a confirming line.  The walk scans
    without consuming and stops at the first line it scans in every case (the
    line holds the closer exactly once, the document has ended, or the line
    fails the count check), so the confirming line is the line after the
    opener's, holding the closer exactly once.  A next line that holds the
    closer twice does not confirm: [Open] yields no node and leaves reader
    and context as they were. *)
Theorem Open_commits_iff (r : Reader) (pc : Context) :
  ((exists node st r' pc', Open r pc = (Some node, st, r', pc')) <->
   (exists b e f next,
      block_classify (bytes_of (fst (PeekLine r))) = Some (b, e, f)
      /\ Bytes.Contains (slice_from (bytes_of (fst (PeekLine r))) (len b)) e
         = false
      /\ fst (PeekLine (AdvanceLine r)) = Some next
      /\ Bytes.Count next e = 1))
  /\ (forall b e f next,
        block_classify (bytes_of (fst (PeekLine r))) = Some (b, e, f) ->
        fst (PeekLine (AdvanceLine r)) = Some next ->
        Bytes.Count next e = 2 ->
        Open r pc = (None, [NoChildren], r, pc)).
Proof.
  rewrite Open_eq. split.
  - split.
    + destruct (block_classify _) as [[[b e] f]|];
        [|intros (? & ? & ? & ? & ?); discriminate].
      destruct (Bytes.Contains _ e) eqn:Ec;
        [intros (? & ? & ? & ? & ?); discriminate|].
      destruct (fst (probe_loop r e)) eqn:Ep;
        [|intros (? & ? & ? & ? & ?); discriminate].
      intros _. apply probe_loop_found in Ep as (next & Hn & Hc).
      exists b, e, f, next. auto.
    + intros (b & e & f & next & -> & -> & Hn & Hc).
      replace (fst (probe_loop r e)) with true
        by (symmetry; apply probe_loop_found; eauto).
      eauto.
  - intros b e f next -> Hn Hc.
    destruct (Bytes.Contains _ e); [reflexivity|].
    destruct (fst (probe_loop r e)) eqn:Ep; [|reflexivity].
    apply probe_loop_found in Ep as (next' & Hn' & Hc').
    rewrite Hn in Hn'. injection Hn' as <-. lia.
Qed.

(** A display-dollar opener whose next line holds the closer once opens a
    region; with the closer twice on the next line it does not. *)
Lemma Open_commits_iff_witness :
  (exists node st r' pc',
     Open (NewReader (B ("$$" ++ nl ++ "a $$" ++ nl))) None
     = (Some node, st, r', pc'))
  /\ Open (NewReader (B ("$$" ++ nl ++ "a $$ b $$" ++ nl))) None
     = (None, [NoChildren],
        NewReader (B ("$$" ++ nl ++ "a $$ b $$" ++ nl)), None).
Proof.
  split.
  - apply (proj2 (proj1 (Open_commits_iff _ None))).
    exists _dollarDisplay, _dollarDisplay,
      (Z.lor flavor_display delimeter_tex), (B ("a $$" ++ nl)).
    repeat split; vm_compute; reflexivity.
  - apply (proj2 (Open_commits_iff _ None)) with
      (b := _dollarDisplay) (e := _dollarDisplay)
      (f := Z.lor flavor_display delimeter_tex)
      (next := B ("a $$ b $$" ++ nl)); vm_compute; reflexivity.
Defined.

(** ** Classification *)

Section Classification.

Import Bytes.

Lemma block_classify_Some (line b e : bytes) (f : Z) :
  block_classify line = Some (b, e, f) ->
  HasPrefix line b = true /\ 0 < len e.
Proof.
  unfold block_classify.
  destruct (HasPrefix line _displayopen) eqn:E1;
    [intros [= <- <- <-]; split; assumption || reflexivity|].
  destruct (HasPrefix line _dollarDisplay) eqn:E2;
    [intros [= <- <- <-]; split; assumption || reflexivity|].
  destruct (HasPrefix line _inlineopen) eqn:E3;
    [intros [= <- <- <-]; split; assumption || reflexivity|].
  destruct (HasPrefix line _dollarInline) eqn:E4;
    [intros [= <- <- <-]; split; assumption || reflexivity|].
  discriminate.
Qed.

(** A unit of [Parse] carries the flavor its [switch] chose. *)
Lemma Parse_flavor (r r' : Reader) (n : mathInlineNode) :
  Parse r = (Some n, r') ->
  exists b e,
    inline_classify (bytes_of (fst (PeekLine r)))
    = Some (b, e, inline_flavor n).
Proof.
  unfold Parse. destruct (PeekLine r) as [line seg]. simpl fst.
  destruct (inline_classify (bytes_of line)) as [[[b e] f]|];
    [|discriminate].
  destruct (Index (slice_from (bytes_of line) (len b)) e <? 0).
  - destruct (inline_peek r) as [[next|] r1]; [|discriminate].
    destruct (negb (Contains next e)); [discriminate|].
    destruct (PeekLine (AdvanceLine r1)) as [line2 seg2].
    destruct (Index (bytes_of line2) e <? 0); [discriminate|].
    intros [= <- _]. eauto.
  - intros [= <- _]. eauto.
Qed.

(** A node of [Open] carries the flavor its [switch] chose. *)
Lemma Open_flavor (r r' : Reader) (pc pc' : Context) (st : State)
  (node : mathBlockNode) :
  Open r pc = (Some node, st, r', pc') ->
  exists b e,
    block_classify (bytes_of (fst (PeekLine r)))
    = Some (b, e, block_flavor node).
Proof.
  rewrite Open_eq.
  destruct (block_classify _) as [[[b e] f]|]; [|discriminate].
  destruct (Contains _ e); [discriminate|].
  destruct (fst (probe_loop r e)); [|discriminate].
  intros [= <- _ _ _]. eauto.
Qed.

End Classification.

(** C3, as the code has it.  The bracket delimiters are the three-byte
    sequences backslash, backslash, parenthesis or bracket.  A line that
    starts with backslash-backslash-( is classified by both scanners with
    closer backslash-backslash-) and flavor inline|AMS, and the inline
    scanner makes the bytes up to the first such closer on the line an
    inline|AMS unit; the same holds of backslash-backslash-[ and display|AMS.
    A line that starts with the two-byte backslash-( or backslash-[ is
    classified by neither scanner. *)
Theorem ams_delimiters_have_two_backslashes (r : Reader) (line : bytes) :
  fst (PeekLine r) = Some line ->
  len _inlineopen = 3 /\ len _displayopen = 3
  /\ (Bytes.HasPrefix line (B "\\(") = true ->
      let f := Z.lor flavor_inline delimeter_ams in
      inline_classify line = Some (B "\\(", B "\\)", f)
      /\ block_classify line = Some (B "\\(", B "\\)", f)
      /\ (on_line r = true ->
          0 <= Bytes.Index (slice_from line 3) (B "\\)") ->
          exists body tail,
            line = B "\\(" ++ body ++ B "\\)" ++ tail
            /\ fst (Parse r)
               = Some {| inline_flavor := f; inline_tex := string_of body |}))
  /\ (Bytes.HasPrefix line (B "\\[") = true ->
      let f := Z.lor flavor_display delimeter_ams in
      inline_classify line = Some (B "\\[", B "\\]", f)
      /\ block_classify line = Some (B "\\[", B "\\]", f)
      /\ (on_line r = true ->
          0 <= Bytes.Index (slice_from line 3) (B "\\]") ->
          exists body tail,
            line = B "\\[" ++ body ++ B "\\]" ++ tail
            /\ fst (Parse r)
               = Some {| inline_flavor := f; inline_tex := string_of body |}))
  /\ (Bytes.HasPrefix line (B "\(") = true
      \/ Bytes.HasPrefix line (B "\[") = true ->
      inline_classify line = None /\ block_classify line = None
      /\ Parse r = (None, r)
      /\ forall pc, Open r pc = (None, [NoChildren], r, pc)).
Proof.
  intros Hpeek. split; [reflexivity|]. split; [reflexivity|].
  split; [|split].
  - intros Hp f.
    assert (Hi : inline_classify line = Some (B "\\(", B "\\)", f)).
    { apply HasPrefix_true in Hp as [t ->]. vm_compute. reflexivity. }
    split; [exact Hi|]. split.
    { apply HasPrefix_true in Hp as [t ->]. vm_compute. reflexivity. }
    intros Hon Hidx.
    destruct (Parse_same_line r line _ _ _ Hon Hpeek Hi Hidx)
      as (body & tail & Hline & _ & HP).
    exists body, tail. split; [exact Hline | now rewrite HP].
  - intros Hp f.
    assert (Hi : inline_classify line = Some (B "\\[", B "\\]", f)).
    { apply HasPrefix_true in Hp as [t ->]. vm_compute. reflexivity. }
    split; [exact Hi|]. split.
    { apply HasPrefix_true in Hp as [t ->]. vm_compute. reflexivity. }
    intros Hon Hidx.
    destruct (Parse_same_line r line _ _ _ Hon Hpeek Hi Hidx)
      as (body & tail & Hline & _ & HP).
    exists body, tail. split; [exact Hline | now rewrite HP].
  - intros Hp.
    assert (Hi : inline_classify line = None).
    { destruct Hp as [Hp|Hp]; apply HasPrefix_true in Hp as [t ->];
        vm_compute; reflexivity. }
    assert (Hb : block_classify line = None).
    { destruct Hp as [Hp|Hp]; apply HasPrefix_true in Hp as [t ->];
        vm_compute; reflexivity. }
    split; [exact Hi|]. split; [exact Hb|]. split.
    + unfold Parse. rewrite (surjective_pairing (PeekLine r)), Hpeek.
      simpl bytes_of. now rewrite Hi.
    + intros pc. rewrite Open_eq, Hpeek. simpl bytes_of. now rewrite Hb.
Qed.

(** The doubled backslash opens and closes a unit of the right flavor. *)
Lemma ams_delimiters_have_two_backslashes_witness :
  (exists body tail,
     B "\\(x\\) and" = B "\\(" ++ body ++ B "\\)" ++ tail
     /\ fst (Parse (NewReader (B "\\(x\\) and")))
        = Some {| inline_flavor := Z.lor flavor_inline delimeter_ams;
                  inline_tex := string_of body |})
  /\ (exists body tail,
        B "\\[y\\]" = B "\\[" ++ body ++ B "\\]" ++ tail
        /\ fst (Parse (NewReader (B "\\[y\\]")))
           = Some {| inline_flavor := Z.lor flavor_display delimeter_ams;
                     inline_tex := string_of body |})
  /\ Parse (NewReader (B "\(x\)")) = (None, NewReader (B "\(x\)")).
Proof.
  split; [|split].
  - destruct (ams_delimiters_have_two_backslashes
                (NewReader (B "\\(x\\) and")) (B "\\(x\\) and") eq_refl)
      as (_ & _ & H & _).
    destruct (H eq_refl) as (_ & _ & HP).
    exact (HP eq_refl ltac:(vm_compute; discriminate)).
  - destruct (ams_delimiters_have_two_backslashes
                (NewReader (B "\\[y\\]")) (B "\\[y\\]") eq_refl)
      as (_ & _ & _ & H & _).
    destruct (H eq_refl) as (_ & _ & HP).
    exact (HP eq_refl ltac:(vm_compute; discriminate)).
  - destruct (ams_delimiters_have_two_backslashes
                (NewReader (B "\(x\)")) (B "\(x\)") eq_refl)
      as (_ & _ & _ & _ & H).
    exact (proj1 (proj2 (proj2 (H (or_introl eq_refl))))).
Defined.

(** C3, as the spec words it, fails: on a region written with the two-byte
    delimiters neither scanner recognizes an opener, and no unit comes out. *)
Lemma two_byte_ams_delimiters_not_recognized :
  inline_classify (B "\(x\)") = None
  /\ block_classify (B "\(x\)") = None
  /\ fst (Parse (NewReader (B "\(x\)"))) = None
  /\ inline_units (B "\(x\)") = []
  /\ inline_classify (B "\[x\]") = None
  /\ block_classify (B "\[x\]") = None
  /\ fst (Parse (NewReader (B "\[x\]"))) = None
  /\ inline_units (B "\[x\]") = [].
Proof. repeat split; vm_compute; reflexivity. Qed.

(** C4.  Both scanners test the display-dollar prefix before the
    inline-dollar prefix.  On every line that starts with two dollar signs
    both classify the opener as display|legacy-dollar with the two-byte
    closer; every unit [Parse] and every node [Open] yield there has that
    flavor; and when two dollar signs occur later in the line, [Parse] yields
    one display unit for the bytes up to them and steps behind them, so the
    region is never read as two inline-dollar regions. *)
Theorem display_dollar_tried_first (r : Reader) (line : bytes) :
  fst (PeekLine r) = Some line ->
  Bytes.HasPrefix line _dollarDisplay = true ->
  let f := Z.lor flavor_display delimeter_tex in
  inline_classify line = Some (_dollarDisplay, _dollarDisplay, f)
  /\ block_classify line = Some (_dollarDisplay, _dollarDisplay, f)
  /\ (forall n r', Parse r = (Some n, r') -> inline_flavor n = f)
  /\ (forall pc node st r' pc',
        Open r pc = (Some node, st, r', pc') -> block_flavor node = f)
  /\ (on_line r = true ->
      0 <= Bytes.Index (slice_from line 2) _dollarDisplay ->
      exists body tail,
        line = _dollarDisplay ++ body ++ _dollarDisplay ++ tail
        /\ Parse r =
             (Some {| inline_flavor := f; inline_tex := string_of body |},
              set_start r (Start (pos r) + 2 + len body + 2))).
Proof.
  intros Hpeek Hp f.
  assert (Hi : inline_classify line
               = Some (_dollarDisplay, _dollarDisplay, f)).
  { unfold inline_classify. now rewrite Hp. }
  assert (Hb : block_classify line
               = Some (_dollarDisplay, _dollarDisplay, f)).
  { apply HasPrefix_true in Hp as [t ->]. vm_compute. reflexivity. }
  split; [exact Hi|]. split; [exact Hb|]. split; [|split].
  - intros n r' HP. apply Parse_flavor in HP as (b & e & HP).
    rewrite Hpeek in HP. simpl bytes_of in HP. congruence.
  - intros pc node st r' pc' HO. apply Open_flavor in HO as (b & e & HO).
    rewrite Hpeek in HO. simpl bytes_of in HO. congruence.
  - intros Hon Hidx.
    destruct (Parse_same_line r line _ _ _ Hon Hpeek Hi Hidx)
      as (body & tail & Hline & _ & HP).
    exists body, tail. split; [exact Hline | exact HP].
Qed.

(** On [$$a$$] the inline scanner yields one display unit. *)
Lemma display_dollar_tried_first_witness :
  (exists body tail,
     B "$$a$$" = _dollarDisplay ++ body ++ _dollarDisplay ++ tail
     /\ Parse (NewReader (B "$$a$$"))
        = (Some {| inline_flavor := Z.lor flavor_display delimeter_tex;
                   inline_tex := string_of body |},
           set_start (NewReader (B "$$a$$")) (0 + 2 + len body + 2)))
  /\ inline_units (B "$$a$$")
     = [{| inline_flavor := Z.lor flavor_display delimeter_tex;
           inline_tex := "a" |}].
Proof.
  split.
  - destruct (display_dollar_tried_first (NewReader (B "$$a$$")) (B "$$a$$")
                eq_refl eq_refl) as (_ & _ & _ & _ & H).
    exact (H eq_refl ltac:(vm_compute; discriminate)).
  - vm_compute. reflexivity.
Defined.

(** C5.  When the closer of a recognized opener occurs later in the same
    line, [Parse] yields one unit; its text is the bytes strictly between the
    opener and the first closer behind it, its flavor the classified one, and
    the reader stands exactly behind that closer, nothing else of it
    changed.  On the line [The value is $x^2$ today.] the host's pass yields
    the single unit [x^2] of flavor inline|legacy-dollar. *)
Theorem inline_closer_on_same_line :
  (forall (r : Reader) (line b e : bytes) (f : Z),
     on_line r = true ->
     fst (PeekLine r) = Some line ->
     inline_classify line = Some (b, e, f) ->
     0 <= Bytes.Index (slice_from line (len b)) e ->
     exists body tail,
       line = b ++ body ++ e ++ tail
       /\ Bytes.Index (body ++ e ++ tail) e = len body
       /\ Parse r =
            (Some {| inline_flavor := f; inline_tex := string_of body |},
             set_start r (Start (pos r) + len (b ++ body ++ e))))
  /\ Parse (Advance (NewReader (B "The value is $x^2$ today.")) 13)
     = (Some {| inline_flavor := Z.lor flavor_inline delimeter_tex;
                inline_tex := "x^2" |},
        Advance (NewReader (B "The value is $x^2$ today.")) 18)
  /\ inline_units (B "The value is $x^2$ today.")
     = [{| inline_flavor := Z.lor flavor_inline delimeter_tex;
           inline_tex := "x^2" |}].
Proof.
  split; [|split; vm_compute; reflexivity].
  intros r line b e f Hon Hpeek Hcls Hidx.
  destruct (Parse_same_line r line _ _ _ Hon Hpeek Hcls Hidx)
    as (body & tail & Hline & Hbody & HP).
  exists body, tail. split; [exact Hline|]. split.
  - rewrite Hbody. f_equal. rewrite Hline. symmetry. apply slice_from_app.
  - rewrite HP, !len_app. do 2 f_equal. lia.
Qed.

(** The reader at the dollar sign of the example line. *)
Lemma inline_closer_on_same_line_witness :
  exists body tail,
    B "$x^2$ today." = B "$" ++ body ++ B "$" ++ tail
    /\ Bytes.Index (body ++ B "$" ++ tail) (B "$") = len body
    /\ Parse (Advance (NewReader (B "The value is $x^2$ today.")) 13)
       = (Some {| inline_flavor := Z.lor flavor_inline delimeter_tex;
                  inline_tex := string_of body |},
          set_start (Advance (NewReader (B "The value is $x^2$ today.")) 13)
            (13 + len (B "$" ++ body ++ B "$"))).
Proof.
  exact (proj1 inline_closer_on_same_line
           (Advance (NewReader (B "The value is $x^2$ today.")) 13)
           (B "$x^2$ today.") (B "$") (B "$")
           (Z.lor flavor_inline delimeter_tex)
           eq_refl eq_refl eq_refl
           ltac:(vm_compute; discriminate)).
Defined.

(** C7.  An opener whose closer the lookahead does not find yields nothing:
    when the closer is neither in the rest of the line nor in the next line,
    [Parse] returns no unit and the reader as it was; when the next line is
    missing or does not hold the closer exactly once, [Open] returns no node
    and reader and context as they were.  Control is back with the host at
    the opener.  The text backslash-( followed by [unterminated] yields no
    unit by either scanner, with one backslash or with two. *)
Theorem unterminated_opener_yields_no_unit :
  (forall r line b e f,
     fst (PeekLine r) = Some line ->
     inline_classify line = Some (b, e, f) ->
     Bytes.Index (slice_from line (len b)) e < 0 ->
     (forall next, fst (PeekLine (AdvanceLine r)) = Some next ->
                   Bytes.Contains next e = false) ->
     Parse r = (None, r))
  /\ (forall r pc line b e f,
        fst (PeekLine r) = Some line ->
        block_classify line = Some (b, e, f) ->
        (forall next, fst (PeekLine (AdvanceLine r)) = Some next ->
                      Bytes.Count next e <> 1) ->
        Open r pc = (None, [NoChildren], r, pc))
  /\ inline_units (B "\(unterminated") = []
  /\ block_units (B "\(unterminated") = []
  /\ inline_units (B "\\(unterminated") = []
  /\ block_units (B "\\(unterminated") = [].
Proof.
  split; [|split; [|repeat split; vm_compute; reflexivity]].
  - intros r line b e f Hpeek Hcls Hidx Hnext.
    unfold Parse. rewrite (surjective_pairing (PeekLine r)), Hpeek.
    simpl bytes_of. rewrite Hcls.
    replace (Bytes.Index (slice_from line (len b)) e <? 0) with true
      by (symmetry; apply Z.ltb_lt; lia).
    rewrite inline_peek_eq.
    destruct (fst (PeekLine (AdvanceLine r))) as [next|]; [|reflexivity].
    now rewrite (Hnext next eq_refl).
  - intros r pc line b e f Hpeek Hcls Hnext.
    rewrite Open_eq, Hpeek. simpl bytes_of. rewrite Hcls.
    destruct (Bytes.Contains _ e); [reflexivity|].
    destruct (fst (probe_loop r e)) eqn:Ep; [|reflexivity].
    apply probe_loop_found in Ep as (next & Hn & Hc).
    now apply Hnext in Hn.
Qed.

(** An opener with two backslashes and no closer, at the inline and at the
    block scanner. *)
Lemma unterminated_opener_yields_no_unit_witness :
  Parse (NewReader (B "\\(unterminated"))
  = (None, NewReader (B "\\(unterminated"))
  /\ Open (NewReader (B ("$$" ++ nl ++ "never closed" ++ nl))) None
     = (None, [NoChildren],
        NewReader (B ("$$" ++ nl ++ "never closed" ++ nl)), None).
Proof.
  destruct unterminated_opener_yields_no_unit as (Hp & Ho & _).
  split.
  - apply (Hp _ (B "\\(unterminated") _inlineopen _inlineclose
             (Z.lor flavor_inline delimeter_ams)); try reflexivity.
    intros next H. vm_compute in H. discriminate.
  - apply (Ho _ None (B ("$$" ++ nl)) _dollarDisplay _dollarDisplay
             (Z.lor flavor_display delimeter_tex)); try reflexivity.
    intros next H. vm_compute in H. injection H as <-.
    vm_compute. discriminate.
Defined.

(** ** The renderer *)

Section Renderer.

(** The test [flavor & flavor_inline > 0] reads the lowest bit. *)
Lemma inline_test_is_bit (flavor : Z) :
  (Z.land flavor flavor_inline >? 0) = has_inline_bit flavor.
Proof.
  unfold has_inline_bit, flavor_inline.
  change (Z.shiftl 1 0) with (Z.ones 1).
  rewrite Z.land_ones by lia. change (2 ^ 1) with 2.
  rewrite <- Z.bit0_mod.
  now destruct (Z.testbit flavor 0).
Qed.

End Renderer.

(** C8.  For a math unit, inline or block node, on entering the renderer
    writes the markup of the engine's text-style conversion when the flavor
    has the inline bit and of the display-style conversion otherwise; it
    writes that string whatever error the engine returned with it, and its
    own error result is nil.  On leaving the node it writes nothing. *)
Theorem renderMath_drops_engine_error (pitz : Pitziil) (w : string) :
  (forall n : mathInlineNode,
     renderMath pitz w (InlineNode n) true
     = ((w ++ fst ((if has_inline_bit (inline_flavor n)
                    then TextStyle pitz else DisplayStyle pitz)
                     (inline_tex n)))%string,
        WalkSkipChildren, None))
  /\ (forall n : mathBlockNode,
        renderMath pitz w (BlockNode n) true
        = ((w ++ fst ((if has_inline_bit (block_flavor n)
                       then TextStyle pitz else DisplayStyle pitz)
                        (block_tex n)))%string,
           WalkSkipChildren, None))
  /\ (forall n : mathInlineNode,
        renderMath pitz w (InlineNode n) false = (w, WalkSkipChildren, None))
  /\ (forall n : mathBlockNode,
        renderMath pitz w (BlockNode n) false = (w, WalkSkipChildren, None))
  /\ (forall node entering, snd (renderMath pitz w node entering) = None).
Proof.
  split; [|split; [|split; [reflexivity|split; [reflexivity|]]]].
  - intros n. unfold renderMath. rewrite inline_test_is_bit.
    now destruct (has_inline_bit (inline_flavor n)).
  - intros n. unfold renderMath. rewrite inline_test_is_bit.
    now destruct (has_inline_bit (block_flavor n)).
  - intros [n|n|] entering; reflexivity.
Qed.

(** An engine that fails on every input: the renderer writes the empty
    markup it returned and reports no error. *)
Lemma renderMath_drops_engine_error_witness :
  renderMath failing_engine "<p>"
    (InlineNode {| inline_flavor := Z.lor flavor_inline delimeter_tex;
                   inline_tex := "x^2" |}) true
  = ("<p>"%string, WalkSkipChildren, None)
  /\ snd (TextStyle failing_engine "x^2") <> None.
Proof.
  split; [|discriminate].
  rewrite (proj1 (renderMath_drops_engine_error failing_engine "<p>")).
  reflexivity.
Defined.

(** ** The inline-dollar closer *)

(** C9, as the code has it.  For an inline-dollar opener the search is for
    the one-byte closer, and the region closes at the first dollar sign in
    the rest of the line, whether or not another dollar sign follows it: the
    unit's text holds no dollar sign and the reader stands behind that one
    byte. *)
Theorem inline_dollar_closes_at_first_dollar (r : Reader) (line : bytes) :
  on_line r = true ->
  fst (PeekLine r) = Some line ->
  Bytes.HasPrefix line _dollarInline = true ->
  Bytes.HasPrefix line _dollarDisplay = false ->
  0 <= Bytes.Index (slice_from line 1) _dollarInline ->
  exists body tail,
    line = B "$" ++ body ++ B "$" ++ tail
    /\ lacks "$"%byte body = true
    /\ Parse r =
         (Some {| inline_flavor := Z.lor flavor_inline delimeter_tex;
                  inline_tex := string_of body |},
          set_start r (Start (pos r) + 1 + len body + 1)).
Proof.
  intros Hon Hpeek Hp Hnp Hidx.
  assert (Hcls : inline_classify line
                 = Some (_dollarInline, _dollarInline,
                         Z.lor flavor_inline delimeter_tex)).
  { unfold inline_classify. now rewrite Hnp, Hp. }
  destruct (Parse_same_line r line _ _ _ Hon Hpeek Hcls Hidx)
    as (body & tail & Hline & Hbody & HP).
  exists body, tail. split; [exact Hline|]. split; [|exact HP].
  assert (Hrest : slice_from line (len _dollarInline)
                  = body ++ _dollarInline ++ tail)
    by (rewrite Hline; apply slice_from_app).
  rewrite Hrest in Hbody.
  replace body with (firstn (List.length body)
                       (body ++ _dollarInline ++ tail))
    by (now rewrite firstn_app, firstn_all, Nat.sub_diag, app_nil_r).
  apply lacks_firstn. intros k Hk. apply Index_first.
  change ["$"%byte] with _dollarInline. unfold len in Hbody. lia.
Qed.

(** The closing dollar sign is taken also where a second one follows. *)
Lemma inline_dollar_closes_at_first_dollar_witness :
  exists body tail,
    B "$x$$ y" = B "$" ++ body ++ B "$" ++ tail
    /\ lacks "$"%byte body = true
    /\ Parse (NewReader (B "$x$$ y"))
       = (Some {| inline_flavor := Z.lor flavor_inline delimeter_tex;
                  inline_tex := string_of body |},
          set_start (NewReader (B "$x$$ y")) (0 + 1 + len body + 1)).
Proof.
  exact (inline_dollar_closes_at_first_dollar
           (NewReader (B "$x$$ y")) (B "$x$$ y")
           eq_refl eq_refl eq_refl eq_refl
           ltac:(vm_compute; discriminate)).
Defined.

(** C9, as the spec words it, fails.  On [$x$$ y] the opener is classified
    inline-dollar, the display pattern occurs in the rest of the line at
    offset 1, and the scanner closes the region exactly there: the unit is
    [x] and the reader stands between the two dollar signs. *)
Lemma inline_dollar_closes_inside_display_pattern :
  inline_classify (B "$x$$ y")
  = Some (_dollarInline, _dollarInline, Z.lor flavor_inline delimeter_tex)
  /\ Bytes.Index (slice_from (B "$x$$ y") 1) _dollarDisplay = 1
  /\ Bytes.Index (slice_from (B "$x$$ y") 1) _dollarInline = 1
  /\ Parse (NewReader (B "$x$$ y"))
     = (Some {| inline_flavor := Z.lor flavor_inline delimeter_tex;
                inline_tex := "x" |},
        set_start (NewReader (B "$x$$ y")) 3)
  /\ fst (PeekLine (snd (Parse (NewReader (B "$x$$ y"))))) = Some (B "$ y").
Proof. repeat split; vm_compute; reflexivity. Qed.

(** ** The block region *)

Section BlockRegion.

Lemma append_nil_r (a : string) : (a ++ EmptyString)%string = a.
Proof. induction a as [|c a IH]; simpl; [reflexivity | now rewrite IH]. Qed.

Lemma append_assoc (a b c : string) :
  ((a ++ b) ++ c)%string = (a ++ (b ++ c))%string.
Proof. induction a as [|d a IH]; simpl; [reflexivity | now rewrite IH]. Qed.

Lemma string_of_app (a b : bytes) :
  string_of (a ++ b) = (string_of a ++ string_of b)%string.
Proof.
  unfold string_of, string_of_list_byte.
  induction a as [|c a IH]; simpl; [reflexivity | now rewrite IH].
Qed.

(** The accumulation rule: the text of the segments in order, nothing
    between them. *)
Lemma join_lines_concat (reader : Reader) (ls : list Segment) :
  forall tex,
    join_lines reader tex ls
    = (tex ++ string_of (List.concat (map (Value reader) ls)))%string.
Proof.
  unfold join_lines. induction ls as [|seg ls IH]; intros tex; simpl.
  - symmetry; apply append_nil_r.
  - now rewrite IH, string_of_app, append_assoc.
Qed.

(** [Close] fixes flavor and text from the context of [Open]. *)
Lemma Close_eq (node : mathBlockNode) (reader : Reader) (d : mathBlockData) :
  Close node reader (Some d)
  = ({| block_flavor := d_flavor d;
        block_tex := (block_tex node
                      ++ string_of (List.concat (map (Value reader)
                                              (Lines node))))%string;
        Lines := Lines node |}, None).
Proof. unfold Close. simpl. now rewrite join_lines_concat. Qed.

(** A block node whose flavor has the inline bit goes to the text-style
    conversion. *)
Lemma render_inline_flavored_block (pitz : Pitziil) (w : string)
  (n : mathBlockNode) :
  has_inline_bit (block_flavor n) = true ->
  renderMath pitz w (BlockNode n) true
  = ((w ++ fst (TextStyle pitz (block_tex n)))%string,
     WalkSkipChildren, None).
Proof.
  intros H. unfold renderMath. now rewrite inline_test_is_bit, H.
Qed.

End BlockRegion.

(** C10, as the code has it.  [Open] takes the inline openers as block
    openers: on a line that starts with backslash-backslash-( (three bytes),
    or with one dollar sign and not two, the classified flavor has the inline
    bit; when the closer is not in the rest of the line and the next line
    holds it exactly once, [Open] returns a node of that flavor and records
    the flavor in the context; [Close] gives the node that flavor, and the
    renderer sends the closed node to the text-style conversion. *)
Theorem Open_takes_inline_openers
  (r : Reader) (pc : Context) (line next : bytes) :
  fst (PeekLine r) = Some line ->
  Bytes.HasPrefix line (B "\\(") = true
  \/ (Bytes.HasPrefix line (B "$") = true
      /\ Bytes.HasPrefix line (B "$$") = false) ->
  exists b e f,
    block_classify line = Some (b, e, f)
    /\ has_inline_bit f = true
    /\ (Bytes.Contains (slice_from line (len b)) e = false ->
        fst (PeekLine (AdvanceLine r)) = Some next ->
        Bytes.Count next e = 1 ->
        let pc' := Some {| d_start := 0; d_end := 0; d_flavor := f |} in
        Open r pc
        = (Some {| block_flavor := f; block_tex := EmptyString;
                   Lines := [snd (PeekLine (Advance r (len b)))] |},
           [NoChildren], Advance r (len b), pc')
        /\ forall node reader pitz w,
             block_flavor (fst (Close node reader pc')) = f
             /\ renderMath pitz w (BlockNode (fst (Close node reader pc')))
                  true
                = ((w ++ fst (TextStyle pitz
                                (block_tex (fst (Close node reader pc')))))
                   %string,
                   WalkSkipChildren, None)).
Proof.
  intros Hpeek Hcase.
  assert (Hcls : exists b e f,
             block_classify line = Some (b, e, f) /\ has_inline_bit f = true).
  { destruct Hcase as [Hp | [Hp Hnp]].
    - exists _inlineopen, _inlineclose, (Z.lor flavor_inline delimeter_ams).
      split; [|reflexivity].
      apply HasPrefix_true in Hp as [t ->]. vm_compute. reflexivity.
    - exists _dollarInline, _dollarInline, (Z.lor flavor_inline delimeter_tex).
      split; [|reflexivity].
      unfold block_classify.
      change _dollarDisplay with (B "$$"). change _dollarInline with (B "$").
      rewrite Hnp, Hp.
      apply HasPrefix_true in Hp as [t ->].
      change (Bytes.HasPrefix (B "$" ++ t) _displayopen) with false.
      change (Bytes.HasPrefix (B "$" ++ t) _inlineopen) with false.
      reflexivity. }
  destruct Hcls as (b & e & f & Hcls & Hbit).
  exists b, e, f. split; [exact Hcls|]. split; [exact Hbit|].
  intros Hsame Hnext Hcount pc'. split.
  - rewrite Open_eq, Hpeek. simpl bytes_of. rewrite Hcls, Hsame.
    replace (fst (probe_loop r e)) with true
      by (symmetry; apply probe_loop_found; eauto).
    reflexivity.
  - intros node reader pitz w. unfold pc'. rewrite Close_eq. simpl fst.
    split; [reflexivity|].
    now apply render_inline_flavored_block.
Qed.

(** A dollar region over two lines opens as a block of inline flavor. *)
Lemma Open_takes_inline_openers_witness :
  exists b e f,
    block_classify (B ("$a" ++ nl)) = Some (b, e, f)
    /\ has_inline_bit f = true
    /\ exists node st r' pc',
         Open (NewReader (B ("$a" ++ nl ++ "b$" ++ nl))) None
         = (Some node, st, r', pc') /\ block_flavor node = f.
Proof.
  destruct (Open_takes_inline_openers
              (NewReader (B ("$a" ++ nl ++ "b$" ++ nl))) None
              (B ("$a" ++ nl)) (B ("b$" ++ nl)) eq_refl
              (or_intror (conj eq_refl eq_refl)))
    as (b & e & f & Hcls & Hbit & H).
  exists b, e, f. split; [exact Hcls|]. split; [exact Hbit|].
  assert (Hf : (b, e, f) = (_dollarInline, _dollarInline,
                            Z.lor flavor_inline delimeter_tex))
    by (vm_compute in Hcls; now injection Hcls as <- <- <-).
  injection Hf as -> -> ->.
  destruct (H eq_refl eq_refl eq_refl) as [HO _].
  rewrite HO. eauto 6.
Defined.

(** C10, as the claim words it, fails for the two-byte opener: a region that
    starts with backslash-( and closes on the next line opens no block. *)
Lemma two_byte_inline_opener_opens_no_block :
  Open (NewReader (B ("\(a" ++ nl ++ "b\)" ++ nl))) None
  = (None, [NoChildren], NewReader (B ("\(a" ++ nl ++ "b\)" ++ nl)), None)
  /\ block_units (B ("\(a" ++ nl ++ "b\)" ++ nl)) = [].
Proof. split; vm_compute; reflexivity. Qed.

(** C6, as the code has it.  On the two-line input with
    backslash-backslash-[ on line 1 and [x + y] before
    backslash-backslash-] on line 2, [Open] opens a region seeded with the
    remainder of line 1 (its newline), [Continue] on line 2 appends the
    prefix before the closer and asks to close, and [Close] joins the
    segments in order with nothing added: exactly one block unit, of flavor
    display|AMS, whose text is the newline of line 1 followed by [x + y].
    In general [Close] appends the bytes of the node's segments, in order,
    to the node's text and takes the flavor recorded by [Open]. *)
Theorem two_line_bracket_region_is_one_block :
  let f := Z.lor flavor_display delimeter_ams in
  let pc := Some {| d_start := 0; d_end := 0; d_flavor := f |} in
  let r1 := Advance (NewReader two_line_doc) 3 in
  let r2 := Advance (AdvanceLine r1) 8 in
  let node1 :=
    {| block_flavor := f; block_tex := EmptyString; Lines := [NewSegment 3 4] |} in
  let node2 :=
    {| block_flavor := f; block_tex := EmptyString;
       Lines := [NewSegment 3 4; NewSegment 4 9] |} in
  let unit :=
    {| block_flavor := f; block_tex := nl ++ "x + y";
       Lines := [NewSegment 3 4; NewSegment 4 9] |} in
  Open (NewReader two_line_doc) None = (Some node1, [NoChildren], r1, pc)
  /\ Continue node1 (AdvanceLine r1) pc = ([Close_; NoChildren], node2, r2)
  /\ Close node2 r2 pc = (unit, None)
  /\ block_units two_line_doc = [unit]
  /\ (forall node reader d,
        Close node reader (Some d)
        = ({| block_flavor := d_flavor d;
              block_tex :=
                (block_tex node
                 ++ string_of (List.concat (map (Value reader) (Lines node))))
                %string;
              Lines := Lines node |}, None)).
Proof.
  repeat split; try (vm_compute; reflexivity).
  intros node reader d. apply Close_eq.
Qed.

(** C6, as the spec words it, fails: on the three-line input written with
    the two-byte delimiters the block scanner opens nothing, and the parse
    yields no block unit. *)
Lemma three_line_bracket_input_yields_no_block :
  Open (NewReader three_line_doc) None
  = (None, [NoChildren], NewReader three_line_doc, None)
  /\ block_units three_line_doc = []
  /\ inline_units three_line_doc = [].
Proof. repeat split; vm_compute; reflexivity. Qed.

(** The probe of [Open] reads the line after the opener's and no further:
    with the closer two lines down, the doubled delimiters open nothing
    either. *)
Example probe_reads_one_line :
  fst (probe_loop (NewReader three_line_doc_doubled) _displayclose) = false
  /\ Open (NewReader three_line_doc_doubled) None
     = (None, [NoChildren], NewReader three_line_doc_doubled, None).
Proof. split; vm_compute; reflexivity. Qed.

(** * Further properties of the scanners *)

(** ** The closer inside a peeked line *)

Section CloserInLine.

Import Bytes.

Lemma PeekLine_len (r : Reader) (line : bytes) :
  on_line r = true -> fst (PeekLine r) = Some line ->
  len line = Stop (pos r) - Start (pos r).
Proof.
  intros Hon Hpeek.
  destruct (on_line_facts r Hon) as (Hpad & Hstart & Hstop & _).
  unfold PeekLine in Hpeek.
  destruct ((0 <=? Start (pos r)) && (Start (pos r) <? len (Source r)));
    simpl in Hpeek; [|discriminate].
  injection Hpeek as <-. rewrite SegmentValue_unpadded by assumption.
  unfold slice, len in *. rewrite length_firstn, length_skipn. lia.
Qed.

(** On a reader that stands on a line, the bytes before a closer in the
    peeked line are the value of the segment up to it, and [Advance] over
    them and the closer moves the start, nothing else. *)
Lemma closer_in_line (r : Reader) (line body e tail : bytes) :
  on_line r = true -> fst (PeekLine r) = Some line ->
  line = body ++ e ++ tail -> no_newline e = true -> 0 < len e ->
  Value r (NewSegment (Start (pos r)) (Start (pos r) + len body)) = body
  /\ Advance r (len body + len e)
     = set_start r (Start (pos r) + len body + len e).
Proof.
  intros Hon Hpeek Hline Hne Hle.
  destruct (PeekLine_on_line r line Hon Hpeek)
    as (_ & (pre & post & Hsrc & Hlen) & Hnl).
  destruct (on_line_facts r Hon) as (Hpad & _).
  split.
  - unfold Value. rewrite SegmentValue_unpadded by reflexivity.
    simpl Start; simpl Stop. rewrite Hsrc, Hline, <- Hlen.
    replace (pre ++ (body ++ e ++ tail) ++ post)
      with (pre ++ body ++ (e ++ tail ++ post))
      by (now rewrite <- !app_assoc).
    apply slice_app_mid.
  - rewrite <- len_app.
    rewrite (Advance_over r pre (body ++ e) (tail ++ post)).
    + rewrite len_app. f_equal. lia.
    + rewrite Hsrc, Hline. now rewrite <- !app_assoc.
    + exact Hlen.
    + exact Hpad.
    + rewrite no_newline_app, Hne, andb_true_r.
      apply no_newline_firstn with (n := List.length body) in Hnl.
      * rewrite Hline, firstn_app, firstn_all, Nat.sub_diag in Hnl.
        simpl in Hnl. now rewrite app_nil_r in Hnl.
      * rewrite Hline, !length_app. unfold len in Hle. lia.
Qed.

Lemma AdvanceLine_set_start (r : Reader) (start : Z) :
  AdvanceLine (set_start r start) = AdvanceLine r.
Proof. reflexivity. Qed.

Lemma Start_AdvanceLine (r : Reader) :
  Start (pos (AdvanceLine r)) = Stop (pos r).
Proof. unfold AdvanceLine. now destruct (Stop (pos r) <? 0). Qed.

Lemma on_line_next (r : Reader) :
  on_line r = true -> on_line (AdvanceLine r) = true.
Proof.
  intros Hon. destruct (on_line_facts r Hon) as (_ & ? & ? & _).
  apply on_line_AdvanceLine. lia.
Qed.

(** A separator counted at least once is found. *)
Lemma count_from_found (sep : bytes) (s : bytes) :
  forall k : nat,
    (0 < count_from s sep k)%nat ->
    exists j, (j <= List.length s)%nat /\ HasPrefix (skipn j s) sep = true.
Proof.
  induction s as [|c s IH]; intros k H; simpl in H; [lia|].
  destruct k as [|k].
  - destruct (HasPrefix (c :: s) sep) eqn:E.
    + exists O. split; [lia | exact E].
    + destruct (IH _ H) as (j & Hj & Hp). exists (S j). split; [simpl; lia|].
      exact Hp.
  - destruct (IH _ H) as (j & Hj & Hp). exists (S j). split; [simpl; lia|].
    exact Hp.
Qed.

Lemma Count_one_Index (s sep : bytes) :
  0 < len sep -> Count s sep = 1 -> 0 <= Index s sep.
Proof.
  intros Hsep Hc. unfold Count in Hc. destruct sep as [|c sep].
  - unfold len in Hsep. simpl in Hsep. lia.
  - assert (H : (0 < count_from s (c :: sep) O)%nat) by lia.
    destruct (count_from_found _ _ _ H) as (j & Hj & Hp).
    unfold Index. destruct (first_occurrence s (c :: sep)) eqn:E; [lia|].
    rewrite (first_occurrence_None _ _ E j Hj) in Hp. discriminate.
Qed.

End CloserInLine.

(** ** The inline scanner on the next line *)

Lemma Parse_next_line
  (r : Reader) (line next b e : bytes) (f : Z) :
  on_line r = true ->
  fst (PeekLine r) = Some line ->
  inline_classify line = Some (b, e, f) ->
  Bytes.Index (slice_from line (len b)) e < 0 ->
  fst (PeekLine (AdvanceLine r)) = Some next ->
  Bytes.Contains next e = true ->
  exists body tail,
    next = body ++ e ++ tail
    /\ Bytes.Index next e = len body
    /\ Parse r =
         (Some {| inline_flavor := f; inline_tex := string_of body |},
          set_start (AdvanceLine r) (Stop (pos r) + len body + len e)).
Proof.
  intros Hon Hpeek Hcls Hidx Hnext Hc.
  destruct (inline_classify_Some _ _ _ _ Hcls) as (_ & _ & Hne & Hle).
  apply Contains_true in Hc.
  destruct (Index_split _ _ Hc) as (body & tail & Hsplit & Hbody).
  exists body, tail. split; [exact Hsplit|]. split; [now rewrite Hbody|].
  pose proof (on_line_next r Hon) as Hon'.
  destruct (closer_in_line _ _ _ _ _ Hon' Hnext Hsplit Hne Hle) as [Hv Ha].
  destruct (PeekLine_on_line _ _ Hon' Hnext) as (Hpk & _).
  unfold Parse. rewrite (surjective_pairing (PeekLine r)), Hpeek.
  simpl bytes_of. rewrite Hcls.
  replace (Bytes.Index (slice_from line (len b)) e <? 0) with true
    by (symmetry; apply Z.ltb_lt; lia).
  rewrite inline_peek_eq, Hnext.
  replace (Bytes.Contains next e) with true
    by (symmetry; now apply Contains_true).
  simpl negb. cbv iota. rewrite Hpk. simpl bytes_of.
  replace (Bytes.Index next e <? 0) with false
    by (symmetry; apply Z.ltb_ge; lia).
  rewrite <- Hbody, Hv, Ha, Start_AdvanceLine. reflexivity.
Qed.

(** When the closer is not in the rest of the opener's line and the next
    line holds it, [Parse] moves to the next line: the unit's text is the
    prefix of the next line before the first closer there, and the bytes
    behind the opener on the opener's own line are not part of it; the reader
    stands behind that closer on the next line. *)
Theorem Parse_closer_on_next_line
  (r : Reader) (line next b e : bytes) (f : Z) :
  on_line r = true ->
  fst (PeekLine r) = Some line ->
  inline_classify line = Some (b, e, f) ->
  Bytes.Index (slice_from line (len b)) e < 0 ->
  fst (PeekLine (AdvanceLine r)) = Some next ->
  Bytes.Contains next e = true ->
  exists body tail,
    next = body ++ e ++ tail
    /\ Bytes.Index next e = len body
    /\ Parse r =
         (Some {| inline_flavor := f; inline_tex := string_of body |},
          set_start (AdvanceLine r) (Stop (pos r) + len body + len e)).
Proof. exact (Parse_next_line r line next b e f). Qed.

(** A display-dollar region that closes on the line after the opener's. *)
Lemma Parse_closer_on_next_line_witness :
  exists body tail,
    B ("b$$ c" ++ nl) = body ++ B "$$" ++ tail
    /\ Bytes.Index (B ("b$$ c" ++ nl)) (B "$$") = len body
    /\ Parse (NewReader (B ("$$a" ++ nl ++ "b$$ c" ++ nl)))
       = (Some {| inline_flavor := Z.lor flavor_display delimeter_tex;
                  inline_tex := string_of body |},
          set_start (AdvanceLine (NewReader (B ("$$a" ++ nl ++ "b$$ c" ++ nl))))
            (4 + len body + len (B "$$"))).
Proof.
  exact (Parse_closer_on_next_line
           (NewReader (B ("$$a" ++ nl ++ "b$$ c" ++ nl)))
           (B ("$$a" ++ nl)) (B ("b$$ c" ++ nl)) (B "$$") (B "$$")
           (Z.lor flavor_display delimeter_tex)
           eq_refl eq_refl eq_refl ltac:(vm_compute; reflexivity)
           eq_refl eq_refl).
Defined.

(** ** The two switches and the flavors *)

Lemma classify_same (line : bytes) :
  inline_classify line = block_classify line.
Proof.
  destruct (Bytes.HasPrefix line _displayopen) eqn:E1.
  { apply HasPrefix_true in E1 as [t ->]. vm_compute. reflexivity. }
  destruct (Bytes.HasPrefix line _inlineopen) eqn:E3.
  { apply HasPrefix_true in E3 as [t ->]. vm_compute. reflexivity. }
  unfold inline_classify, block_classify. rewrite E1, E3.
  destruct (Bytes.HasPrefix line _dollarDisplay); [reflexivity|].
  now destruct (Bytes.HasPrefix line _dollarInline).
Qed.

(** The [switch] of [Parse] and the [switch] of [Open] list their cases in
    different orders and choose the same opener, closer and flavor on every
    line. *)
Theorem classifiers_agree (line : bytes) :
  inline_classify line = block_classify line.
Proof. exact (classify_same line). Qed.

(** The classified triples are the four rows of the delimiter table. *)
Lemma inline_classify_rows (line b e : bytes) (f : Z) :
  inline_classify line = Some (b, e, f) ->
  (b, e, f) = (_dollarDisplay, _dollarDisplay,
               Z.lor flavor_display delimeter_tex)
  \/ (b, e, f) = (_dollarInline, _dollarInline,
                  Z.lor flavor_inline delimeter_tex)
  \/ (b, e, f) = (_inlineopen, _inlineclose,
                  Z.lor flavor_inline delimeter_ams)
  \/ (b, e, f) = (_displayopen, _displayclose,
                  Z.lor flavor_display delimeter_ams).
Proof.
  unfold inline_classify.
  destruct (Bytes.HasPrefix line _dollarDisplay); [intros [= <- <- <-]; auto|].
  destruct (Bytes.HasPrefix line _dollarInline); [intros [= <- <- <-]; auto|].
  destruct (Bytes.HasPrefix line _inlineopen); [intros [= <- <- <-]; auto|].
  destruct (Bytes.HasPrefix line _displayopen);
    [intros [= <- <- <-]; auto 6 | discriminate].
Qed.

Lemma closeTag_of_block (line b e : bytes) (f : Z) :
  block_classify line = Some (b, e, f) -> closeTag_of f = e.
Proof.
  intros H. rewrite <- classify_same in H.
  destruct (inline_classify_rows _ _ _ _ H)
    as [E|[E|[E|E]]]; injection E as -> -> ->; reflexivity.
Qed.

(** The closer [Continue] derives from a recorded flavor is the closer the
    switch of [Open] (and of [Parse]) chose with that flavor. *)
Theorem closeTag_of_classified (line b e : bytes) (f : Z) :
  block_classify line = Some (b, e, f) ->
  closeTag_of f = e /\ inline_classify line = Some (b, closeTag_of f, f).
Proof.
  intros H. rewrite classify_same. rewrite H.
  rewrite <- classify_same in H.
  destruct (inline_classify_rows _ _ _ _ H)
    as [E|[E|[E|E]]]; injection E as -> -> ->; split; reflexivity.
Qed.

Lemma closeTag_of_classified_witness :
  closeTag_of (Z.lor flavor_inline delimeter_ams) = _inlineclose
  /\ inline_classify (B "\\(a")
     = Some (_inlineopen, closeTag_of (Z.lor flavor_inline delimeter_ams),
             Z.lor flavor_inline delimeter_ams).
Proof.
  exact (closeTag_of_classified (B "\\(a") _inlineopen _inlineclose
           (Z.lor flavor_inline delimeter_ams) eq_refl).
Defined.

(** Every unit of [Parse] and every node of [Open] has a flavor with exactly
    one of the inline and display bits and exactly one of the AMS and dollar
    bits, and no other bit; the renderer's test therefore sends it to the
    display-style conversion exactly when the display bit is set. *)
Theorem scanner_flavors_well_formed (r : Reader) :
  (forall n r', Parse r = (Some n, r') ->
     let f := inline_flavor n in
     xorb (Z.testbit f 0) (Z.testbit f 1) = true
     /\ xorb (Z.testbit f 2) (Z.testbit f 3) = true
     /\ 0 <= f < 16
     /\ (Z.land f flavor_inline >? 0) = negb (Z.land f flavor_display >? 0))
  /\ (forall pc node st r' pc', Open r pc = (Some node, st, r', pc') ->
        let f := block_flavor node in
        xorb (Z.testbit f 0) (Z.testbit f 1) = true
        /\ xorb (Z.testbit f 2) (Z.testbit f 3) = true
        /\ 0 <= f < 16
        /\ (Z.land f flavor_inline >? 0) = negb (Z.land f flavor_display >? 0)).
Proof.
  split.
  - intros n r' H f. apply Parse_flavor in H as (b & e & H).
    destruct (inline_classify_rows _ _ _ _ H)
      as [E|[E|[E|E]]]; injection E as _ _ E; subst f; rewrite E;
      repeat split; vm_compute; congruence.
  - intros pc node st r' pc' H f. apply Open_flavor in H as (b & e & H).
    rewrite <- classify_same in H.
    destruct (inline_classify_rows _ _ _ _ H)
      as [E|[E|[E|E]]]; injection E as _ _ E; subst f; rewrite E;
      repeat split; vm_compute; congruence.
Qed.

Lemma scanner_flavors_well_formed_witness :
  xorb (Z.testbit 9 0) (Z.testbit 9 1) = true
  /\ xorb (Z.testbit 9 2) (Z.testbit 9 3) = true
  /\ 0 <= 9 < 16
  /\ (Z.land 9 flavor_inline >? 0) = negb (Z.land 9 flavor_display >? 0).
Proof.
  exact (proj1 (scanner_flavors_well_formed
                  (Advance (NewReader (B "The value is $x^2$ today.")) 13))
           {| inline_flavor := 9; inline_tex := "x^2" |}
           (Advance (NewReader (B "The value is $x^2$ today.")) 18)
           eq_refl).
Defined.

(** ** A block region from [Open] to [Close] *)

Section OpenedRegion.

Import Bytes.

Lemma snd_PeekLine (r : Reader) : snd (PeekLine r) = pos r.
Proof.
  unfold PeekLine.
  now destruct ((0 <=? Start (pos r)) && (Start (pos r) <? len (Source r))).
Qed.

Lemma classified_opener (line b e : bytes) (f : Z) :
  inline_classify line = Some (b, e, f) ->
  no_newline b = true /\ 0 < len b.
Proof.
  intros H. destruct (inline_classify_rows _ _ _ _ H)
    as [E|[E|[E|E]]]; injection E as -> _ _; split; reflexivity.
Qed.

(** The value of the rest of a line behind a prefix. *)
Lemma Value_rest_of_line (r : Reader) (line b rest : bytes) :
  on_line r = true -> fst (PeekLine r) = Some line -> line = b ++ rest ->
  slice (Source r) (Start (pos r) + len b) (Stop (pos r)) = rest.
Proof.
  intros Hon Hpeek Hline.
  destruct (PeekLine_on_line r line Hon Hpeek)
    as (_ & (pre & post & Hsrc & Hlen) & _).
  pose proof (PeekLine_len r line Hon Hpeek) as Hl.
  rewrite Hline, len_app in Hl.
  replace (Stop (pos r)) with (len (pre ++ b) + len rest)
    by (rewrite len_app; lia).
  rewrite Hsrc, Hline, <- Hlen, <- len_app.
  replace (pre ++ (b ++ rest) ++ post) with ((pre ++ b) ++ rest ++ post)
    by (now rewrite <- !app_assoc).
  apply slice_app_mid.
Qed.

End OpenedRegion.

Lemma opened_region
  (r : Reader) (pc : Context) (line next b e : bytes) (f : Z) :
  on_line r = true ->
  fst (PeekLine r) = Some line ->
  block_classify line = Some (b, e, f) ->
  Bytes.Contains (slice_from line (len b)) e = false ->
  fst (PeekLine (AdvanceLine r)) = Some next ->
  Bytes.Count next e = 1 ->
  exists rest body tail,
    line = b ++ rest /\ next = body ++ e ++ tail
    /\ Bytes.Index next e = len body
    /\ let r1 := set_start r (Start (pos r) + len b) in
       let pc1 := Some {| d_start := 0; d_end := 0; d_flavor := f |} in
       let seg2 := NewSegment (Stop (pos r)) (Stop (pos r) + len body) in
       let node1 := {| block_flavor := f; block_tex := EmptyString;
                       Lines := [pos r1] |} in
       let node2 := {| block_flavor := f; block_tex := EmptyString;
                       Lines := [pos r1; seg2] |} in
       let r2 := set_start (AdvanceLine r)
                   (Stop (pos r) + len body + len e) in
       Open r pc = (Some node1, [NoChildren], r1, pc1)
       /\ Continue node1 (AdvanceLine r1) pc1
          = ([Close_; NoChildren], node2, r2)
       /\ Close node2 r2 pc1
          = ({| block_flavor := f; block_tex := string_of (rest ++ body);
                Lines := [pos r1; seg2] |}, None).
Proof.
  intros Hon Hpeek Hcls Hsame Hnext Hcount.
  pose proof Hcls as Hi. rewrite <- classify_same in Hi.
  destruct (inline_classify_Some _ _ _ _ Hi) as (Hpre & _ & Hne & Hle).
  destruct (classified_opener _ _ _ _ Hi) as (Hnb & Hlb).
  apply HasPrefix_true in Hpre as [rest Hline].
  pose proof (Count_one_Index _ _ Hle Hcount) as Hidx.
  destruct (Index_split _ _ Hidx) as (body & tail & Hsplit & Hbody).
  exists rest, body, tail.
  split; [exact Hline|]. split; [exact Hsplit|]. split; [now rewrite Hbody|].
  intros r1 pc1 seg2 node1 node2 r2.
  pose proof (on_line_next r Hon) as Hon'.
  destruct (on_line_facts r Hon) as (Hpad & _).
  assert (Hadv : Advance r (len b) = r1).
  { destruct (closer_in_line r line [] b rest Hon Hpeek Hline Hnb Hlb)
      as [_ Ha].
    change (len []) with 0 in Ha. rewrite Z.add_0_l, Z.add_0_r in Ha.
    exact Ha. }
  destruct (closer_in_line _ _ _ _ _ Hon' Hnext Hsplit Hne Hle) as [Hv Ha].
  rewrite Start_AdvanceLine in Hv, Ha.
  split; [|split].
  - rewrite Open_eq, Hpeek. simpl bytes_of. rewrite Hcls, Hsame.
    replace (fst (probe_loop r e)) with true
      by (symmetry; apply probe_loop_found; eauto).
    now rewrite Hadv, snd_PeekLine.
  - unfold Continue, r1. rewrite AdvanceLine_set_start.
    destruct (PeekLine_on_line _ _ Hon' Hnext) as (Hpk & _).
    rewrite Hpk. unfold pc1, node1, node2, seg2, r2, pcGet.
    cbn [d_flavor bytes_of block_flavor block_tex Lines app].
    rewrite (closeTag_of_block _ _ _ _ Hcls).
    replace (0 <=? Bytes.Index next e) with true
      by (symmetry; apply Z.leb_le; lia).
    rewrite Start_AdvanceLine, <- Hbody, Ha. reflexivity.
  - unfold pc1. rewrite Close_eq. unfold node2.
    cbn [d_flavor block_tex block_flavor Lines map List.concat String.append].
    f_equal. f_equal. f_equal.
    rewrite app_nil_r. f_equal.
    + unfold Value, r2, r1. simpl Source.
      rewrite Source_AdvanceLine, SegmentValue_unpadded by exact Hpad.
      simpl Start; simpl Stop.
      exact (Value_rest_of_line r line b rest Hon Hpeek Hline).
    + unfold Value in *. unfold r2. simpl Source. exact Hv.
Qed.

(** A region that [Open] opens is closed by [Continue] on the very next
    line: the probe has seen the closer there, so the branch of [Continue]
    that keeps the region open is not taken.  The node then has two segments,
    the rest of the opener's line and the prefix of the next line before the
    first closer, and [Close] makes their bytes, in this order, the text of
    the unit; the reader stands behind the closer. *)
Theorem opened_region_closes_on_next_line
  (r : Reader) (pc : Context) (line next b e : bytes) (f : Z) :
  on_line r = true ->
  fst (PeekLine r) = Some line ->
  block_classify line = Some (b, e, f) ->
  Bytes.Contains (slice_from line (len b)) e = false ->
  fst (PeekLine (AdvanceLine r)) = Some next ->
  Bytes.Count next e = 1 ->
  exists rest body tail,
    line = b ++ rest /\ next = body ++ e ++ tail
    /\ Bytes.Index next e = len body
    /\ let r1 := set_start r (Start (pos r) + len b) in
       let pc1 := Some {| d_start := 0; d_end := 0; d_flavor := f |} in
       let seg2 := NewSegment (Stop (pos r)) (Stop (pos r) + len body) in
       let node1 := {| block_flavor := f; block_tex := EmptyString;
                       Lines := [pos r1] |} in
       let node2 := {| block_flavor := f; block_tex := EmptyString;
                       Lines := [pos r1; seg2] |} in
       let r2 := set_start (AdvanceLine r)
                   (Stop (pos r) + len body + len e) in
       Open r pc = (Some node1, [NoChildren], r1, pc1)
       /\ Continue node1 (AdvanceLine r1) pc1
          = ([Close_; NoChildren], node2, r2)
       /\ Close node2 r2 pc1
          = ({| block_flavor := f; block_tex := string_of (rest ++ body);
                Lines := [pos r1; seg2] |}, None).
Proof. exact (opened_region r pc line next b e f). Qed.

(** A bracket region with text on the opener's line and behind the closer. *)
Lemma opened_region_closes_on_next_line_witness :
  exists rest body tail,
    B ("\\[a" ++ nl) = B "\\[" ++ rest
    /\ B ("b\\] c" ++ nl) = body ++ B "\\]" ++ tail
    /\ fst (Close
              {| block_flavor := Z.lor flavor_display delimeter_ams;
                 block_tex := EmptyString;
                 Lines := [{| Start := 3; Stop := 5; Padding := 0 |};
                           NewSegment 5 (5 + len body)] |}
              (set_start
                 (AdvanceLine
                    (NewReader (B ("\\[a" ++ nl ++ "b\\] c" ++ nl))))
                 (5 + len body + len (B "\\]")))
              (Some {| d_start := 0; d_end := 0;
                       d_flavor := Z.lor flavor_display delimeter_ams |}))
       = {| block_flavor := Z.lor flavor_display delimeter_ams;
            block_tex := string_of (rest ++ body);
            Lines := [{| Start := 3; Stop := 5; Padding := 0 |};
                      NewSegment 5 (5 + len body)] |}.
Proof.
  destruct (opened_region_closes_on_next_line
              (NewReader (B ("\\[a" ++ nl ++ "b\\] c" ++ nl))) None
              (B ("\\[a" ++ nl)) (B ("b\\] c" ++ nl)) (B "\\[") (B "\\]")
              (Z.lor flavor_display delimeter_ams)
              eq_refl eq_refl eq_refl eq_refl eq_refl eq_refl)
    as (rest & body & tail & H1 & H2 & _ & _ & _ & H3).
  exists rest, body, tail. split; [exact H1|]. split; [exact H2|].
  exact (f_equal fst H3).
Defined.

(** ** What [Parse] can do to the reader *)

Section ParseOutcomes.

Import Bytes.

Lemma Parse_at_end (r : Reader) :
  fst (PeekLine r) = None -> Parse r = (None, r).
Proof.
  intros H. unfold Parse. now rewrite (surjective_pairing (PeekLine r)), H.
Qed.

(** The three outcomes of [Parse] on a reader that stands on a line: no
    unit and the reader untouched, a unit closed on the same line, a unit
    closed on the next line. *)
Lemma Parse_outcomes (r : Reader) :
  on_line r = true ->
  Parse r = (None, r)
  \/ (exists line b e f body tail,
        fst (PeekLine r) = Some line
        /\ inline_classify line = Some (b, e, f)
        /\ line = b ++ body ++ e ++ tail
        /\ Parse r =
             (Some {| inline_flavor := f; inline_tex := string_of body |},
              set_start r (Start (pos r) + len b + len body + len e)))
  \/ (exists line next b e f body tail,
        fst (PeekLine r) = Some line
        /\ inline_classify line = Some (b, e, f)
        /\ fst (PeekLine (AdvanceLine r)) = Some next
        /\ next = body ++ e ++ tail
        /\ Parse r =
             (Some {| inline_flavor := f; inline_tex := string_of body |},
              set_start (AdvanceLine r)
                (Stop (pos r) + len body + len e))).
Proof.
  intros Hon.
  destruct (fst (PeekLine r)) as [line|] eqn:Hpeek;
    [|left; now apply Parse_at_end].
  destruct (inline_classify line) as [[[b e] f]|] eqn:Hcls.
  - destruct (Z.ltb_spec (Index (slice_from line (len b)) e) 0) as [Hneg|Hpos].
    + destruct (fst (PeekLine (AdvanceLine r))) as [next|] eqn:Hn.
      * destruct (Contains next e) eqn:Hc.
        -- right; right.
           destruct (Parse_next_line r line next b e f Hon Hpeek Hcls Hneg
                       Hn Hc) as (body & tail & Hs & _ & HP).
           exists line, next, b, e, f, body, tail. auto.
        -- left. unfold Parse.
           rewrite (surjective_pairing (PeekLine r)), Hpeek. simpl bytes_of.
           rewrite Hcls.
           replace (Index (slice_from line (len b)) e <? 0) with true
             by (symmetry; apply Z.ltb_lt; lia).
           now rewrite inline_peek_eq, Hn, Hc.
      * left. unfold Parse.
        rewrite (surjective_pairing (PeekLine r)), Hpeek. simpl bytes_of.
        rewrite Hcls.
        replace (Index (slice_from line (len b)) e <? 0) with true
          by (symmetry; apply Z.ltb_lt; lia).
        now rewrite inline_peek_eq, Hn.
    + right; left.
      destruct (Parse_same_line r line b e f Hon Hpeek Hcls Hpos)
        as (body & tail & Hs & _ & HP).
      exists line, b, e, f, body, tail. auto.
  - left. unfold Parse.
    rewrite (surjective_pairing (PeekLine r)), Hpeek. simpl bytes_of.
    now rewrite Hcls.
Qed.

Lemma Source_set_start (r : Reader) (start : Z) :
  Source (set_start r start) = Source r.
Proof. reflexivity. Qed.

Lemma lineNo_AdvanceLine (r : Reader) :
  0 <= Stop (pos r) -> lineNo (AdvanceLine r) = lineNo r + 1.
Proof.
  intros H. unfold AdvanceLine.
  now replace (Stop (pos r) <? 0) with false
    by (symmetry; apply Z.ltb_ge; lia).
Qed.

End ParseOutcomes.

(** A unit of [Parse] costs input: the reader it returns reads the same
    document, stands on a line again, at least two bytes further (an opener
    and a closer), on the same line or the next one. *)
Theorem Parse_unit_consumes (r r' : Reader) (n : mathInlineNode) :
  on_line r = true ->
  Parse r = (Some n, r') ->
  on_line r' = true
  /\ Source r' = Source r
  /\ Start (pos r) + 2 <= Start (pos r') <= len (Source r)
  /\ (lineNo r' = lineNo r \/ lineNo r' = lineNo r + 1).
Proof.
  intros Hon HP.
  destruct (on_line_facts r Hon) as (_ & Hstart & Hstop & _).
  assert (Hmain : on_line r' = true /\ Source r' = Source r
                  /\ Start (pos r) + 2 <= Start (pos r')
                  /\ (lineNo r' = lineNo r \/ lineNo r' = lineNo r + 1)).
  { destruct (Parse_outcomes r Hon)
      as [HN | [(line & b & e & f & body & tail & Hpeek & Hcls & Hline & HS)
               | (line & next & b & e & f & body & tail & Hpeek & Hcls
                  & Hnext & Hsplit & HS)]].
    - rewrite HN in HP. discriminate.
    - rewrite HS in HP. injection HP as _ <-.
      destruct (inline_classify_Some _ _ _ _ Hcls) as (_ & _ & _ & Hle).
      destruct (classified_opener _ _ _ _ Hcls) as (_ & Hlb).
      pose proof (PeekLine_len r line Hon Hpeek) as Hl.
      rewrite Hline, !len_app in Hl.
      pose proof (len_nonneg body). pose proof (len_nonneg tail).
      split; [apply on_line_set_start; [exact Hon | lia]|].
      split; [reflexivity|]. simpl. split; [lia | now left].
    - rewrite HS in HP. injection HP as _ <-.
      destruct (inline_classify_Some _ _ _ _ Hcls) as (Hpre & _ & _ & Hle).
      destruct (classified_opener _ _ _ _ Hcls) as (_ & Hlb).
      apply HasPrefix_true in Hpre as [rest Hline].
      pose proof (PeekLine_len r line Hon Hpeek) as Hl.
      rewrite Hline, len_app in Hl.
      pose proof (on_line_next r Hon) as Hon'.
      pose proof (PeekLine_len _ next Hon' Hnext) as Hl'.
      rewrite Start_AdvanceLine, Hsplit, !len_app in Hl'.
      pose proof (len_nonneg body). pose proof (len_nonneg tail).
      pose proof (len_nonneg rest).
      split; [apply on_line_set_start;
              [exact Hon' | rewrite Start_AdvanceLine; lia]|].
      split; [apply Source_AdvanceLine|].
      simpl. split; [lia|]. right. apply lineNo_AdvanceLine. lia. }
  destruct Hmain as (Hon' & Hsrc & Hlow & Hline).
  repeat split; try assumption.
  destruct (on_line_facts r' Hon') as (_ & ? & ? & _). rewrite <- Hsrc. lia.
Qed.

Lemma Parse_unit_consumes_witness :
  on_line (Advance (NewReader (B "The value is $x^2$ today.")) 18) = true
  /\ Source (Advance (NewReader (B "The value is $x^2$ today.")) 18)
     = Source (Advance (NewReader (B "The value is $x^2$ today.")) 13)
  /\ 13 + 2 <= 18 <= len (B "The value is $x^2$ today.")
  /\ (0 = 0 \/ 0 = 0 + 1).
Proof.
  exact (Parse_unit_consumes
           (Advance (NewReader (B "The value is $x^2$ today.")) 13)
           (Advance (NewReader (B "The value is $x^2$ today.")) 18)
           {| inline_flavor := 9; inline_tex := "x^2" |}
           eq_refl eq_refl).
Defined.

(** ** What the block scanner keeps *)

Section BlockInvariant.

Import Bytes.

Lemma on_line_pos_in_bounds (r : Reader) :
  on_line r = true -> seg_in_bounds (Source r) (pos r) = true.
Proof.
  intros Hon. destruct (on_line_facts r Hon) as (Hpad & ? & ? & _).
  unfold seg_in_bounds. rewrite Hpad, !andb_true_iff, !Z.leb_le. lia.
Qed.

Lemma closeTag_of_cases (f : Z) :
  closeTag_of f = []
  \/ (no_newline (closeTag_of f) = true /\ 0 < len (closeTag_of f)).
Proof.
  unfold closeTag_of.
  destruct (f =? Z.lor flavor_inline delimeter_ams); [right; now split|].
  destruct (f =? Z.lor flavor_display delimeter_ams); [right; now split|].
  destruct (f =? Z.lor flavor_inline delimeter_tex); [right; now split|].
  destruct (f =? Z.lor flavor_display delimeter_tex); [right; now split|].
  now left.
Qed.

Lemma Index_nil (s : bytes) : Index s [] = 0.
Proof. unfold Index. now destruct s. Qed.

(** The reader of a committed [Open] stands behind the opener. *)
Lemma Open_reader (r r' : Reader) (pc pc' : Context) (st : State)
  (node : mathBlockNode) :
  on_line r = true ->
  Open r pc = (Some node, st, r', pc') ->
  exists line b e,
    fst (PeekLine r) = Some line
    /\ block_classify line = Some (b, e, block_flavor node)
    /\ Contains (slice_from line (len b)) e = false
    /\ (exists next, fst (PeekLine (AdvanceLine r)) = Some next
                     /\ Count next e = 1)
    /\ r' = set_start r (Start (pos r) + len b)
    /\ Start (pos r) + len b <= Stop (pos r)
    /\ Lines node = [pos r']
    /\ pc' = Some {| d_start := 0; d_end := 0;
                     d_flavor := block_flavor node |}.
Proof.
  intros Hon. rewrite Open_eq.
  destruct (fst (PeekLine r)) as [line|] eqn:Hpeek; [|discriminate].
  simpl bytes_of.
  destruct (block_classify line) as [[[b e] f]|] eqn:Hcls; [|discriminate].
  destruct (Contains _ e) eqn:Hsame; [discriminate|].
  destruct (fst (probe_loop r e)) eqn:Hp; [|discriminate].
  pose proof Hcls as Hi. rewrite <- classify_same in Hi.
  destruct (inline_classify_Some _ _ _ _ Hi) as (Hpre & _).
  destruct (classified_opener _ _ _ _ Hi) as (Hnb & Hlb).
  apply HasPrefix_true in Hpre as [rest Hline].
  destruct (closer_in_line r line [] b rest Hon Hpeek Hline Hnb Hlb)
    as [_ Ha].
  change (len []) with 0 in Ha. rewrite Z.add_0_l, Z.add_0_r in Ha.
  rewrite Ha, snd_PeekLine. intros [= <- _ <- <-].
  exists line, b, e. simpl.
  pose proof (PeekLine_len r line Hon Hpeek) as Hl.
  rewrite Hline, len_app in Hl. pose proof (len_nonneg rest).
  repeat split; try assumption; try reflexivity; try lia.
  now apply probe_loop_found.
Qed.

End BlockInvariant.

(** The block scanner keeps the reader on a line and every segment it puts
    on a node within the document, so that [Close] never takes the value of
    a segment out of range: the node of [Open] has one such segment, and
    [Continue], whatever the context holds, appends at most one and leaves
    text and flavor of the node alone. *)
Theorem block_segments_stay_in_bounds :
  (forall r pc node st r' pc',
     on_line r = true ->
     Open r pc = (Some node, st, r', pc') ->
     on_line r' = true /\ Source r' = Source r
     /\ forallb (seg_in_bounds (Source r)) (Lines node) = true)
  /\ (forall node r pc st node' r',
        on_line r = true ->
        forallb (seg_in_bounds (Source r)) (Lines node) = true ->
        Continue node r pc = (st, node', r') ->
        on_line r' = true /\ Source r' = Source r
        /\ forallb (seg_in_bounds (Source r)) (Lines node') = true
        /\ block_tex node' = block_tex node
        /\ block_flavor node' = block_flavor node).
Proof.
  split.
  - intros r pc node st r' pc' Hon HO.
    destruct (Open_reader _ _ _ _ _ _ Hon HO)
      as (line & b & e & Hpeek & Hcls & _ & _ & Hr' & Hle & HL & _).
    pose proof Hcls as Hi. rewrite <- classify_same in Hi.
    destruct (classified_opener _ _ _ _ Hi) as (_ & Hlb).
    assert (Hon' : on_line r' = true)
      by (rewrite Hr'; apply on_line_set_start; [exact Hon | lia]).
    split; [exact Hon'|]. split; [now rewrite Hr'|].
    rewrite HL. simpl. rewrite andb_true_r.
    replace (Source r) with (Source r') by now rewrite Hr'.
    now apply on_line_pos_in_bounds.
  - intros node r pc st node' r' Hon Hin. unfold Continue.
    rewrite (surjective_pairing (PeekLine r)), snd_PeekLine.
    destruct (on_line_facts r Hon) as (Hpad & Hstart & Hstop & _).
    destruct pc as [d|]; unfold pcGet; [|intros [= _ <- <-]; auto].
    destruct (Z.leb_spec 0 (Bytes.Index (bytes_of (fst (PeekLine r)))
                              (closeTag_of (d_flavor d)))) as [Hpos|Hneg].
    + intros [= _ <- <-]. simpl.
      destruct (Index_split _ _ Hpos) as (body & tail & Hsplit & Hbody).
      rewrite <- Hbody. pose proof (len_nonneg body).
      pose proof (len_nonneg tail).
      assert (Hfit : Start (pos r) + len body
                     + len (closeTag_of (d_flavor d)) <= Stop (pos r)
                     /\ Advance r (len body + len (closeTag_of (d_flavor d)))
                        = set_start r (Start (pos r) + len body
                                       + len (closeTag_of (d_flavor d)))).
      { destruct (fst (PeekLine r)) as [line|] eqn:Hpeek.
        - simpl in Hsplit.
          pose proof (PeekLine_len r line Hon Hpeek) as Hl.
          rewrite Hsplit, !len_app in Hl.
          destruct (closeTag_of_cases (d_flavor d)) as [Hnil | [Hnn Hlt]].
          + rewrite Hnil in *. change (len []) with 0 in *.
            assert (len body = 0) by (rewrite Hbody; apply Index_nil).
            split; [lia|]. replace (len body + 0) with 0 by lia.
            replace (Start (pos r) + len body + 0) with (Start (pos r))
              by lia.
            now destruct r as [src l []].
          + split; [lia|].
            exact (proj2 (closer_in_line r line body _ tail Hon Hpeek
                            Hsplit Hnn Hlt)).
        - simpl in Hsplit. symmetry in Hsplit.
          apply app_eq_nil in Hsplit as [-> Hs].
          apply app_eq_nil in Hs as [-> _].
          change (len []) with 0. split; [lia|].
          replace (Start (pos r) + 0 + 0) with (Start (pos r)) by lia.
          now destruct r as [src l []]. }
      destruct Hfit as [Hfit ->].
      pose proof (len_nonneg (closeTag_of (d_flavor d))) as Htag.
      split; [apply on_line_set_start; [exact Hon | lia]|].
      split; [reflexivity|]. split; [|auto].
      rewrite forallb_app, Hin. simpl. rewrite andb_true_r.
      unfold seg_in_bounds; simpl.
      rewrite !andb_true_iff, !Z.leb_le. lia.
    + intros [= _ <- <-]. simpl.
      split; [exact Hon|]. split; [reflexivity|]. split; [|auto].
      rewrite forallb_app, Hin. simpl. rewrite andb_true_r.
      now apply on_line_pos_in_bounds.
Qed.

(** The opener's line and the closer's line of the bracket region. *)
Lemma block_segments_stay_in_bounds_witness :
  forallb (seg_in_bounds region_doc)
    (Lines (snd (fst (Continue
                        {| block_flavor := Z.lor flavor_display delimeter_ams;
                           block_tex := EmptyString;
                           Lines := [{| Start := 3; Stop := 5;
                                        Padding := 0 |}] |}
                        (AdvanceLine (NewReader region_doc))
                        (Some {| d_start := 0; d_end := 0;
                                 d_flavor :=
                                   Z.lor flavor_display delimeter_ams |})))))
  = true.
Proof.
  destruct block_segments_stay_in_bounds as [_ H].
  destruct (Continue _ _ _) as [[st node'] r'] eqn:E.
  eapply H in E; [exact (proj1 (proj2 (proj2 E))) | reflexivity..].
Defined.

(** [Close] ends the region in the context: whatever it was given, the
    context it leaves is empty; it takes the flavor of the unit from the
    context, not from the node; with an empty context it leaves the node as
    it is, its text not built; and after it a second [Close] changes nothing
    and a [Continue] does nothing but answer [None]. *)
Theorem Close_ends_region (node : mathBlockNode) (r : Reader) (pc : Context) :
  snd (Close node r pc) = None
  /\ (forall d, pc = Some d ->
        block_flavor (fst (Close node r pc)) = d_flavor d
        /\ block_tex (fst (Close node r pc))
           = (block_tex node
              ++ string_of (List.concat (map (Value r) (Lines node))))%string)
  /\ (pc = None -> fst (Close node r pc) = node)
  /\ Close (fst (Close node r pc)) r (snd (Close node r pc))
     = (fst (Close node r pc), None)
  /\ (forall r2,
        Continue (fst (Close node r pc)) r2 (snd (Close node r pc))
        = ([None_], fst (Close node r pc), r2)).
Proof.
  split; [reflexivity|]. split; [|split; [|split]].
  - intros d ->. rewrite Close_eq. split; reflexivity.
  - now intros ->.
  - reflexivity.
  - intros r2. unfold Continue.
    now rewrite (surjective_pairing (PeekLine r2)).
Qed.

Lemma Close_ends_region_witness :
  block_flavor
    (fst (Close {| block_flavor := 0; block_tex := "k";
                   Lines := [NewSegment 3 5] |}
            (NewReader region_doc)
            (Some {| d_start := 0; d_end := 0; d_flavor := 6 |}))) = 6
  /\ fst (Close {| block_flavor := 6; block_tex := "k";
                   Lines := [NewSegment 3 5] |}
            (NewReader region_doc) None)
     = {| block_flavor := 6; block_tex := "k"; Lines := [NewSegment 3 5] |}.
Proof.
  split.
  - exact (proj1 (proj1 (proj2 (Close_ends_region _ _ _)) _ eq_refl)).
  - exact (proj1 (proj2 (proj2 (Close_ends_region _ _ _))) eq_refl).
Defined.

(** ** The two scanners on the same opener *)

(** What [Open] opens, [Parse] would take as well: on a reader where [Open]
    commits, [Parse] yields a unit of the same flavor, closed on the next
    line.  The texts differ by the rest of the opener's line: the block's
    text is that rest followed by the text of the inline unit. *)
Theorem opened_region_is_inline_unit_too
  (r r' : Reader) (pc pc' : Context) (st : State) (node : mathBlockNode) :
  on_line r = true ->
  Open r pc = (Some node, st, r', pc') ->
  exists line b e n r'',
    fst (PeekLine r) = Some line
    /\ block_classify line = Some (b, e, block_flavor node)
    /\ Parse r = (Some n, r'')
    /\ inline_flavor n = block_flavor node
    /\ lineNo r'' = lineNo r + 1
    /\ block_tex
         (fst (Close (snd (fst (Continue node (AdvanceLine r') pc')))
                 (snd (Continue node (AdvanceLine r') pc')) pc'))
       = (string_of (slice_from line (len b)) ++ inline_tex n)%string.
Proof.
  intros Hon HO.
  destruct (Open_reader _ _ _ _ _ _ Hon HO)
    as (line & b & e & Hpeek & Hcls & Hsame & (next & Hnext & Hcount)
        & Hr' & _ & HL & Hpc').
  pose proof Hcls as Hi. rewrite <- classify_same in Hi.
  destruct (inline_classify_Some _ _ _ _ Hi) as (_ & _ & _ & Hle).
  pose proof (Count_one_Index _ _ Hle Hcount) as Hidx.
  destruct (Parse_next_line r line next b e _ Hon Hpeek Hi
              (proj1 (Contains_false _ _) Hsame) Hnext
              (proj2 (Contains_true _ _) Hidx))
    as (body & tail & Hsplit & Hbody & HP).
  destruct (opened_region r pc line next b e _ Hon Hpeek Hcls Hsame Hnext
              Hcount)
    as (rest & body' & tail' & Hline & Hsplit' & Hbody' & HO' & HC & HCl).
  cbv zeta in HO', HC, HCl.
  assert (body' = body).
  { rewrite Hbody in Hbody'.
    assert (Hf : firstn (List.length body) next = body)
      by (rewrite Hsplit at 1;
          now rewrite firstn_app, firstn_all, Nat.sub_diag, app_nil_r).
    rewrite <- Hf. rewrite Hsplit' at 1.
    replace (List.length body) with (List.length body')
      by (unfold len in Hbody'; lia).
    now rewrite firstn_app, firstn_all, Nat.sub_diag, app_nil_r. }
  subst body'.
  pose proof (eq_trans (eq_sym HO) HO') as E.
  match type of HO' with
  | _ = (Some ?n1, _, ?r1, ?p1) =>
      assert (Hnode : node = n1)
        by exact (f_equal (fun x => match fst (fst (fst x)) with
                                    | Some y => y
                                    | None => node
                                    end) E);
      assert (Hr1 : r' = r1) by exact (f_equal (fun x => snd (fst x)) E);
      assert (Hpc1 : pc' = p1) by exact (f_equal snd E)
  end.
  rewrite <- Hnode, <- Hr1, <- Hpc1 in HC. rewrite <- Hr1, <- Hpc1 in HCl.
  exists line, b, e. eexists. eexists.
  split; [exact Hpeek|]. split; [exact Hcls|]. split; [exact HP|].
  split; [reflexivity|]. split.
  - simpl. destruct (on_line_facts r Hon) as (_ & ? & _).
    apply lineNo_AdvanceLine. lia.
  - rewrite HC. cbn [fst snd]. rewrite HCl. cbn [fst].
    cbn [block_tex inline_tex]. rewrite string_of_app. do 2 f_equal.
    rewrite Hline. symmetry. apply slice_from_app.
Qed.

Lemma opened_region_is_inline_unit_too_witness :
  exists line b e n r'',
    fst (PeekLine (NewReader region_doc)) = Some line
    /\ block_classify line
       = Some (b, e, Z.lor flavor_display delimeter_ams)
    /\ Parse (NewReader region_doc) = (Some n, r'')
    /\ inline_flavor n = Z.lor flavor_display delimeter_ams
    /\ lineNo r'' = 0 + 1
    /\ block_tex
         (fst (Close
                 (snd (fst (Continue
                              {| block_flavor :=
                                   Z.lor flavor_display delimeter_ams;
                                 block_tex := EmptyString;
                                 Lines := [{| Start := 3; Stop := 5;
                                              Padding := 0 |}] |}
                              (AdvanceLine (Advance (NewReader region_doc) 3))
                              (Some {| d_start := 0; d_end := 0;
                                       d_flavor :=
                                         Z.lor flavor_display
                                           delimeter_ams |}))))
                 (snd (Continue
                         {| block_flavor :=
                              Z.lor flavor_display delimeter_ams;
                            block_tex := EmptyString;
                            Lines := [{| Start := 3; Stop := 5;
                                         Padding := 0 |}] |}
                         (AdvanceLine (Advance (NewReader region_doc) 3))
                         (Some {| d_start := 0; d_end := 0;
                                  d_flavor :=
                                    Z.lor flavor_display delimeter_ams |})))
                 (Some {| d_start := 0; d_end := 0;
                          d_flavor := Z.lor flavor_display delimeter_ams |})))
       = (string_of (slice_from line (len b)) ++ inline_tex n)%string.
Proof.
  exact (opened_region_is_inline_unit_too
           (NewReader region_doc) (Advance (NewReader region_doc) 3)
           None _ [NoChildren] _ eq_refl eq_refl).
Defined.

(** ** The inline-dollar unit on one line *)

(** An inline-dollar unit that closes on the opener's line is never empty:
    a dollar sign directly behind the opener makes the opener a display
    opener, so the first closing dollar sign stands at least one byte
    further. *)
Theorem inline_dollar_unit_not_empty (r : Reader) (line : bytes) :
  on_line r = true ->
  fst (PeekLine r) = Some line ->
  Bytes.HasPrefix line _dollarInline = true ->
  Bytes.HasPrefix line _dollarDisplay = false ->
  0 <= Bytes.Index (slice_from line 1) _dollarInline ->
  exists body tail,
    line = B "$" ++ body ++ B "$" ++ tail
    /\ body <> []
    /\ Parse r =
         (Some {| inline_flavor := Z.lor flavor_inline delimeter_tex;
                  inline_tex := string_of body |},
          set_start r (Start (pos r) + 1 + len body + 1)).
Proof.
  intros Hon Hpeek Hp Hnp Hidx.
  assert (Hcls : inline_classify line
                 = Some (_dollarInline, _dollarInline,
                         Z.lor flavor_inline delimeter_tex)).
  { unfold inline_classify. now rewrite Hnp, Hp. }
  destruct (Parse_same_line r line _ _ _ Hon Hpeek Hcls Hidx)
    as (body & tail & Hline & _ & HP).
  exists body, tail. split; [exact Hline|]. split; [|exact HP].
  intros ->. rewrite Hline in Hnp. vm_compute in Hnp. discriminate.
Qed.

Lemma inline_dollar_unit_not_empty_witness :
  exists body tail,
    B "$x$ y" = B "$" ++ body ++ B "$" ++ tail
    /\ body <> []
    /\ Parse (NewReader (B "$x$ y"))
       = (Some {| inline_flavor := Z.lor flavor_inline delimeter_tex;
                  inline_tex := string_of body |},
          set_start (NewReader (B "$x$ y")) (0 + 1 + len body + 1)).
Proof.
  exact (inline_dollar_unit_not_empty (NewReader (B "$x$ y")) (B "$x$ y")
           eq_refl eq_refl eq_refl eq_refl
           ltac:(vm_compute; discriminate)).
Defined.

(** * The course pages *)

Section StringsFacts.

Import Strings.

Lemma eqb_true (a b : bytes) : eqb a b = true <-> a = b.
Proof.
  revert b; induction a as [|c a IH]; intros [|d b]; simpl;
    try (split; [discriminate | discriminate]); [now split|].
  rewrite andb_true_iff, IH. split.
  - intros [Hc ->]. apply byte_dec_bl in Hc. now subst.
  - intros [= -> ->]. split; [now apply byte_dec_lb | reflexivity].
Qed.

Lemma eqb_nil (a : bytes) : eqb a [] = true <-> a = [].
Proof. apply eqb_true. Qed.

Lemma TrimPrefix_app (p s : bytes) : TrimPrefix (p ++ s) p = s.
Proof.
  unfold TrimPrefix, HasPrefix. rewrite HasPrefix_app. apply slice_from_app.
Qed.

Lemma TrimSuffix_app (s suffix : bytes) : TrimSuffix (s ++ suffix) suffix = s.
Proof.
  unfold TrimSuffix, HasSuffix. rewrite len_app.
  replace (len s + len suffix - len suffix) with (len s) by lia.
  rewrite slice_from_app.
  replace (len suffix <=? len s + len suffix) with true
    by (symmetry; apply Z.leb_le; pose proof (len_nonneg s); lia).
  replace (eqb suffix suffix) with true by (symmetry; now apply eqb_true).
  simpl. unfold slice, len. rewrite Z.sub_0_r, Nat2Z.id. simpl.
  now rewrite firstn_app, firstn_all, Nat.sub_diag, app_nil_r.
Qed.

Lemma trimLeft_split (s cutset : bytes) :
  exists d, s = d ++ trimLeft s cutset /\ forallb (in_cutset cutset) d = true.
Proof.
  induction s as [|c s (d & Hs & Hd)]; simpl.
  - now exists [].
  - destruct (in_cutset cutset c) eqn:E.
    + exists (c :: d). simpl. rewrite E, Hd. split; [now f_equal | reflexivity].
    + now exists [].
Qed.

Lemma trimLeft_head (s cutset t : bytes) (c : byte) :
  trimLeft s cutset = c :: t -> in_cutset cutset c = false.
Proof.
  induction s as [|a s IH]; simpl; [discriminate|].
  destruct (in_cutset cutset a) eqn:E; [exact IH|].
  now intros [= <- _].
Qed.

Lemma trimLeft_nil (s cutset : bytes) :
  trimLeft s cutset = [] <-> forallb (in_cutset cutset) s = true.
Proof.
  induction s as [|a s IH]; simpl; [now split|].
  destruct (in_cutset cutset a); simpl; [exact IH | split; discriminate].
Qed.

Lemma trimRight_split (s cutset : bytes) :
  exists d, s = trimRight s cutset ++ d /\ forallb (in_cutset cutset) d = true.
Proof.
  induction s as [|c s (d & Hs & Hd)]; simpl.
  - now exists [].
  - destruct (trimRight s cutset) as [|u us] eqn:Et.
    + destruct (in_cutset cutset c) eqn:E.
      * exists (c :: d). simpl in *. rewrite E, Hd. now subst.
      * exists d. simpl in *. now subst.
    + exists d. split; [|exact Hd]. simpl. now f_equal.
Qed.

Lemma trimRight_last (s cutset t : bytes) (c : byte) :
  trimRight s cutset = t ++ [c] -> in_cutset cutset c = false.
Proof.
  revert t; induction s as [|a s IH]; intros t; simpl.
  - now destruct t.
  - destruct (trimRight s cutset) as [|u us] eqn:Et.
    + destruct (in_cutset cutset a) eqn:E.
      * now destruct t.
      * destruct t as [|x [|y t]]; [now intros [= <-] | discriminate..].
    + destruct t as [|x t]; [discriminate|].
      intros [= _ H]. exact (IH t H).
Qed.

Lemma trimRight_nil (s cutset : bytes) :
  trimRight s cutset = [] <-> forallb (in_cutset cutset) s = true.
Proof.
  induction s as [|a s IH]; simpl; [now split|].
  destruct (trimRight s cutset) as [|u us] eqn:Et.
  - destruct (in_cutset cutset a); simpl.
    + split; [intros _; now apply IH | reflexivity].
    + split; discriminate.
  - split; [discriminate|]. rewrite andb_true_iff. intros [_ H].
    apply IH in H. discriminate.
Qed.

(** What [Trim] leaves: the input between two runs of cutset bytes, with no
    cutset byte at either end. *)
Lemma Trim_spec (s cutset : bytes) :
  (exists l r,
     s = l ++ Trim s cutset ++ r
     /\ forallb (in_cutset cutset) l = true
     /\ forallb (in_cutset cutset) r = true)
  /\ (forall c t, Trim s cutset = c :: t -> in_cutset cutset c = false)
  /\ (forall t c, Trim s cutset = t ++ [c] -> in_cutset cutset c = false).
Proof.
  unfold Trim.
  destruct (trimRight_split s cutset) as (r & Hr & Hrin).
  destruct (trimLeft_split (trimRight s cutset) cutset) as (l & Hl & Hlin).
  split; [|split].
  - exists l, r. split; [|now split].
    rewrite app_assoc, <- Hl. exact Hr.
  - intros c t. apply trimLeft_head.
  - intros t c H. rewrite H in Hl.
    apply (trimRight_last s cutset (l ++ t) c).
    now rewrite Hl, app_assoc.
Qed.

Lemma Trim_nil (s cutset : bytes) :
  Trim s cutset = [] <-> forallb (in_cutset cutset) s = true.
Proof.
  unfold Trim. rewrite trimLeft_nil.
  destruct (trimRight_split s cutset) as (r & Hr & Hrin).
  rewrite Hr at 2. rewrite forallb_app, Hrin, andb_true_r. reflexivity.
Qed.

Lemma Trim_clean (s : bytes) (c : byte) :
  lacks c s = true -> Trim s [c] = s.
Proof.
  intros H. unfold Trim.
  assert (Hr : trimRight s [c] = s).
  { induction s as [|a s IH]; [reflexivity|]. simpl in *.
    apply andb_true_iff in H as [Ha Hs]. rewrite (IH Hs).
    destruct s; [|reflexivity].
    unfold in_cutset. simpl. apply negb_true_iff in Ha. now rewrite Ha. }
  rewrite Hr. destruct s as [|a s]; [reflexivity|]. simpl in *.
  apply andb_true_iff in H as [Ha _]. unfold in_cutset. simpl.
  apply negb_true_iff in Ha. now rewrite Ha.
Qed.

End StringsFacts.

Section CourcePages.

Lemma list_cources_map (cources : list bytes) :
  list_cources cources = map cource_name cources.
Proof.
  unfold list_cources.
  assert (H : forall acc,
             fold_left (fun acc cource => acc ++ [cource_name cource])
               cources acc = acc ++ map cource_name cources).
  { induction cources as [|c cs IH]; intros acc; simpl.
    - now rewrite app_nil_r.
    - now rewrite IH, <- app_assoc. }
  exact (H []).
Qed.

Lemma cource_name_of_file (name : bytes) :
  cource_name (B "content/cources/" ++ name ++ B ".md") = name.
Proof.
  unfold cource_name. rewrite app_assoc, TrimSuffix_app.
  apply TrimPrefix_app.
Qed.

End CourcePages.

(** The listing of [main] undoes the naming of the course files: for files
    [content/cources/<name>.md], whatever the names are, the list holds
    exactly the names, in the order of the files. *)
Theorem list_cources_of_files (names : list bytes) :
  list_cources (map (fun name => B "content/cources/" ++ name ++ B ".md")
                  names)
  = names.
Proof.
  rewrite list_cources_map, map_map.
  induction names as [|n ns IH]; cbn [map]; [reflexivity|].
  now rewrite cource_name_of_file, IH.
Qed.

(** The course handler answers not-found exactly when nothing but slashes
    is left of the path behind the prefix [/cource/].  Otherwise, with the
    course template present, the template is run with the path cleared of
    the prefix and of the slashes at both ends as the course: the course is
    not empty and neither starts nor ends with a slash, the slug is the
    course followed by [.md], and the error of the template is passed on.
    Without the template the answer is the server error. *)
Theorem renderCource_answers (app : App) (path : bytes) :
  (renderCource app path = NotFound <->
   forallb (Strings.in_cutset (B "/"))
     (Strings.TrimPrefix path (B "/cource/")) = true)
  /\ (renderCource app path = TemplateMissing ->
      Templates app (B "cource.html") = None)
  /\ (forall data err,
        renderCource app path = Executed data err ->
        CurrentCourceSlug data = CurrentCource data ++ B ".md"
        /\ DataCources data = Cources app
        /\ CurrentCource data <> []
        /\ (forall t, CurrentCource data <> "/"%byte :: t)
        /\ (forall t, CurrentCource data <> t ++ ["/"%byte])
        /\ (exists l r,
              Strings.TrimPrefix path (B "/cource/")
              = l ++ CurrentCource data ++ r
              /\ forallb (Strings.in_cutset (B "/")) l = true
              /\ forallb (Strings.in_cutset (B "/")) r = true)
        /\ exists t, Templates app (B "cource.html") = Some t
                     /\ err = t data).
Proof.
  unfold renderCource.
  set (rest := Strings.TrimPrefix path (B "/cource/")).
  destruct (Strings.eqb (Strings.Trim rest (B "/")) []) eqn:E.
  - apply eqb_nil in E. split; [|split; [discriminate | discriminate]].
    split; [intros _; now apply Trim_nil | reflexivity].
  - assert (Hne : Strings.Trim rest (B "/") <> []).
    { intros H. apply eqb_nil in H. congruence. }
    split; [|split].
    + split.
      * destruct (Templates app (B "cource.html")); discriminate.
      * intros H. apply Trim_nil in H. contradiction.
    + now destruct (Templates app (B "cource.html")).
    + intros data err.
      destruct (Templates app (B "cource.html")) as [t|]; [|discriminate].
      intros [= <- <-]. simpl.
      destruct (Trim_spec rest (B "/")) as (Hsplit & Hhead & Hlast).
      repeat split; try assumption.
      * intros t' H. now apply Hhead in H.
      * intros t' H. now apply Hlast in H.
      * eauto.
Qed.

Lemma renderCource_answers_witness :
  renderCource (app_with_template []) (B "/cource///") = NotFound
  /\ Templates (mkApp (fun _ => None) []) (B "cource.html") = None.
Proof.
  destruct (renderCource_answers (app_with_template []) (B "/cource///"))
    as (H1 & _).
  destruct (renderCource_answers (mkApp (fun _ => None) []) (B "/cource/a"))
    as (_ & H2 & _).
  split; [apply H1; reflexivity | apply H2; reflexivity].
Defined.

(** Every listed course has its page: for a course file
    [content/cources/<name>.md] whose name is not empty and holds no slash,
    the handler, asked for [/cource/] followed by the name that [main]
    lists, runs the template with that name as the course and with the
    file's own name as the slug. *)
Theorem listed_cource_has_page (app : App) (t : Template) (name : bytes) :
  name <> [] ->
  lacks "/"%byte name = true ->
  Templates app (B "cource.html") = Some t ->
  let file := B "content/cources/" ++ name ++ B ".md" in
  let data := {| CurrentCource := name;
                 CurrentCourceSlug := name ++ B ".md";
                 DataCources := Cources app |} in
  renderCource app (B "/cource/" ++ cource_name file) = Executed data (t data)
  /\ B "content/cources/" ++ CurrentCourceSlug data = file.
Proof.
  intros Hne Hlacks Ht file data. split; [|reflexivity].
  unfold file. rewrite cource_name_of_file.
  unfold renderCource. rewrite TrimPrefix_app.
  change (B "/") with ["/"%byte]. rewrite Trim_clean by exact Hlacks.
  replace (Strings.eqb name []) with false.
  - now rewrite Ht.
  - symmetry. destruct (Strings.eqb name []) eqn:E; [|reflexivity].
    apply eqb_nil in E. contradiction.
Qed.

Lemma listed_cource_has_page_witness :
  renderCource (app_with_template [B "matikka"])
    (B "/cource/" ++ cource_name (B "content/cources/" ++ B "matikka"
                                  ++ B ".md"))
  = Executed {| CurrentCource := B "matikka";
                CurrentCourceSlug := B "matikka" ++ B ".md";
                DataCources := [B "matikka"] |} None.
Proof.
  exact (proj1 (listed_cource_has_page (app_with_template [B "matikka"])
                  (fun _ => None) (B "matikka")
                  ltac:(discriminate) eq_refl eq_refl)).
Defined.
